(** * A shallow embedding of the Go package [enum]

    The package offers reflection-driven [String]/[Parse] conversions for
    user-defined enumerated types whose symbols are written as methods
    ([func (Color) Red() Color { return Color(1) }]).

    The development has these layers, one Rocq module per Go package:
    - [strings]  : the three library functions the package calls
                   ([ToLower], [TrimSpace], [Split]) and [strings.Builder];
    - [strconv]  : [FormatUint], [ParseUint], [ParseInt] (Go 1.13 and later:
                   base prefixes 0b/0o/0x, underscores, bit-size check),
                   and [fmt] for the one verb the package prints with;
    - [reflect]  : what the package observes of a [reflect.Type]: its name,
                   its kind and size, and its exported methods in
                   [Method(i)] order;
    - [enum]     : the package itself, function by function.

    Go strings are byte strings; they are modelled by [string] (one [ascii]
    per byte).  Case mapping and white space are modelled on the ASCII
    range, which is where Go method names of the modelled types live.
    Integers of every width are [Z] with the wrap-around written out where
    the code can reach it.  The model fixes a 64-bit platform
    ([int], [uint] and [uintptr] are 8 bytes). *)

From Stdlib Require Import ZArith List String Ascii Bool Lia.
Import ListNotations.

Local Open Scope string_scope.
Local Open Scope Z_scope.

(** ** Outcomes

    A Go call either returns or panics.  Functions that return
    [(value, error)] keep both components, each of which may be nil. *)

Inductive outcome (A : Type) : Type :=
| Returns (a : A)
| Panics.
Arguments Returns {A} a.
Arguments Panics {A}.

Definition bind {A B : Type} (o : outcome A) (k : A -> outcome B) : outcome B :=
  match o with
  | Returns a => k a
  | Panics => Panics
  end.

Notation "x <- c ;; k" := (bind c (fun x => k))
  (at level 61, c at next level, right associativity).

(** The numeric value of a byte. *)
Definition byte (c : ascii) : Z := Z.of_N (N_of_ascii c).

(** ** Package strings *)

Module strings.

Definition is_upper (c : ascii) : bool :=
  (65 <=? byte c) && (byte c <=? 90).

Definition lower_byte (c : ascii) : ascii :=
  if is_upper c then ascii_of_N (N_of_ascii c + 32) else c.

(** [strings.ToLower] on ASCII text, where it lowers the 26 capitals and
    nothing else.  Go maps other Unicode letters as well; the model keeps
    the bytes above 127, so it is Go's function on ASCII text only, and the
    statements that lower a text or a name are made for ASCII ones. *)
Fixpoint ToLower (s : string) : string :=
  match s with
  | EmptyString => EmptyString
  | String c r => String (lower_byte c) (ToLower r)
  end.

(** The ASCII white space of [unicode.IsSpace]:
    tab, newline, vertical tab, form feed, carriage return, space. *)
Definition is_space (c : ascii) : bool :=
  ((9 <=? byte c) && (byte c <=? 13)) || (byte c =? 32).

Fixpoint trim_left (s : string) : string :=
  match s with
  | EmptyString => EmptyString
  | String c r => if is_space c then trim_left r else s
  end.

Fixpoint trim_right (s : string) : string :=
  match s with
  | EmptyString => EmptyString
  | String c r =>
      match trim_right r with
      | EmptyString => if is_space c then EmptyString else String c EmptyString
      | r' => String c r'
      end
  end.

(** [strings.TrimSpace] on ASCII text.  Go trims Unicode white space as
    well; the statements that depend on the trimming of a given text are
    made for ASCII text. *)
Definition TrimSpace (s : string) : string := trim_right (trim_left s).

(** [strings.Split(s, sep)] for a one-byte separator: the pieces between
    the separators, so that the empty text splits into one empty piece. *)
Fixpoint Split (s : string) (sep : ascii) : list string :=
  match s with
  | EmptyString => [EmptyString]
  | String c r =>
      if Ascii.eqb c sep then EmptyString :: Split r sep
      else match Split r sep with
           | h :: t => String c h :: t
           | [] => [String c EmptyString]
           end
  end.

(** [strings.Builder]: the bytes written so far. *)
Abbreviation Builder := string (only parsing).
Definition WriteString (b : Builder) (s : string) : Builder :=
  String.append b s.
Definition Len (b : Builder) : Z := Z.of_nat (String.length b).

End strings.

(** ** Package strconv *)

Module strconv.

Definition maxUint64 : Z := 2 ^ 64 - 1.

Definition digits : string := "0123456789abcdefghijklmnopqrstuvwxyz".

Definition digit_char (d : Z) : ascii :=
  match String.get (Z.to_nat d) digits with
  | Some c => c
  | None => "0"%char
  end.

(** The general loop of [formatBits]: digits are produced from the least
    significant one and written right to left.  A [uint64] has at most 64
    digits in any base, which bounds the loop. *)
Fixpoint formatBits_loop (fuel : nat) (u b : Z) (a : string) : string :=
  match fuel with
  | O => a
  | S fuel' =>
      if b <=? u
      then formatBits_loop fuel' (u / b) b (String (digit_char (u mod b)) a)
      else String (digit_char u) a
  end.

Definition formatBits (u b : Z) : string := formatBits_loop 64 u b EmptyString.

(** [strconv.FormatUint(i, base)]; panics on an illegal base. *)
Definition FormatUint (i : Z) (base : Z) : outcome string :=
  if (base <? 2) || (36 <? base) then Panics
  else Returns (formatBits i base).

Inductive NumError : Type :=
| ErrSyntax
| ErrRange
| ErrBase
| ErrBitSize.

(** [lower(c)] of atoi.go: [c | ('x' - 'X')]. *)
Definition lower (c : Z) : Z := Z.lor c 32.

Definition is_digit (c : Z) : bool := (48 <=? c) && (c <=? 57).

(** [underscoreOK]: underscores only between digits or between a base
    prefix and a digit.  [saw] is the class of the last byte seen. *)
Inductive saw_class : Type := SawStart | SawDigit | SawUnderscore | SawOther.

Definition saw_eqb (a b : saw_class) : bool :=
  match a, b with
  | SawStart, SawStart | SawDigit, SawDigit
  | SawUnderscore, SawUnderscore | SawOther, SawOther => true
  | _, _ => false
  end.

Fixpoint underscoreOK_loop (hex : bool) (saw : saw_class) (s : string) : bool :=
  match s with
  | EmptyString => negb (saw_eqb saw SawUnderscore)
  | String c r =>
      if is_digit (byte c)
         || (hex && (97 <=? lower (byte c)) && (lower (byte c) <=? 102))
      then underscoreOK_loop hex SawDigit r
      else if byte c =? 95
      then if saw_eqb saw SawDigit then underscoreOK_loop hex SawUnderscore r
           else false
      else if saw_eqb saw SawUnderscore then false
      else underscoreOK_loop hex SawOther r
  end.

Definition is_prefix_letter (c : Z) : bool :=
  (lower c =? 98) || (lower c =? 111) || (lower c =? 120).

Definition underscoreOK (s : string) : bool :=
  let s :=
    match s with
    | String c r => if (byte c =? 45) || (byte c =? 43) then r else s
    | EmptyString => s
    end in
  match s with
  | String c0 (String c1 r) =>
      if (byte c0 =? 48) && is_prefix_letter (byte c1)
      then underscoreOK_loop (lower (byte c1) =? 120) SawDigit r
      else underscoreOK_loop false SawStart s
  | _ => underscoreOK_loop false SawStart s
  end.

(** The digit a byte stands for, in the switch of the digit loop. *)
Definition digit_value (c : Z) : option Z :=
  if is_digit c then Some (c - 48)
  else if (97 <=? lower c) && (lower c <=? 122)
       then Some (lower c - 97 + 10)
       else None.

(** The digit loop of [ParseUint].  The result is the pair the loop
    leaves: the value and whether an underscore was seen, or the early
    return. *)
Fixpoint ParseUint_loop (base0 : bool) (base cutoff maxVal : Z)
         (s : string) (n : Z) (underscores : bool)
  : (Z * bool) + (Z * NumError) :=
  match s with
  | EmptyString => inl (n, underscores)
  | String ch r =>
      let c := byte ch in
      if (c =? 95) && base0
      then ParseUint_loop base0 base cutoff maxVal r n true
      else
        match digit_value c with
        | None => inr (0, ErrSyntax)
        | Some d =>
            if base <=? d then inr (0, ErrSyntax)
            else if cutoff <=? n then inr (maxVal, ErrRange)
            else
              let n := n * base in
              let n1 := (n + d) mod 2 ^ 64 in
              if (n1 <? n) || (maxVal <? n1) then inr (maxVal, ErrRange)
              else ParseUint_loop base0 base cutoff maxVal r n1 underscores
        end
  end.

(** The base-0 prefix switch of [ParseUint]: the base and the rest. *)
Definition base_prefix (s : string) : Z * string :=
  match s with
  | String c0 r0 =>
      if byte c0 =? 48 then
        match r0 with
        | String c1 r1 =>
            if (3 <=? Z.of_nat (String.length s)) && (lower (byte c1) =? 98)
            then (2, r1)
            else if (3 <=? Z.of_nat (String.length s)) && (lower (byte c1) =? 111)
            then (8, r1)
            else if (3 <=? Z.of_nat (String.length s)) && (lower (byte c1) =? 120)
            then (16, r1)
            else (8, r0)
        | EmptyString => (8, r0)
        end
      else (10, s)
  | EmptyString => (10, s)
  end.

(** [strconv.ParseUint(s, base, bitSize)], returning [(value, err)]. *)
Definition ParseUint (s : string) (base : Z) (bitSize : Z)
  : Z * option NumError :=
  match s with
  | EmptyString => (0, Some ErrSyntax)
  | _ =>
      let base0 := base =? 0 in
      let sel :=
        if (2 <=? base) && (base <=? 36) then Some (base, s)
        else if base =? 0 then Some (base_prefix s)
        else None in
      match sel with
      | None => (0, Some ErrBase)
      | Some (base, rest) =>
          if (bitSize <? 0) || (64 <? bitSize) then (0, Some ErrBitSize)
          else
            let bitSize := if bitSize =? 0 then 64 else bitSize in
            let cutoff := maxUint64 / base + 1 in
            let maxVal := 2 ^ bitSize - 1 in
            match ParseUint_loop base0 base cutoff maxVal rest 0 false with
            | inr (v, e) => (v, Some e)
            | inl (n, underscores) =>
                if underscores && negb (underscoreOK s)
                then (0, Some ErrSyntax)
                else (n, None)
            end
      end
  end.

(** [strconv.ParseInt(s, base, bitSize)], returning [(value, err)]. *)
Definition ParseInt (s : string) (base : Z) (bitSize : Z)
  : Z * option NumError :=
  match s with
  | EmptyString => (0, Some ErrSyntax)
  | String c0 r0 =>
      let '(neg, s1) :=
        if byte c0 =? 43 then (false, r0)
        else if byte c0 =? 45 then (true, r0)
        else (false, s) in
      match ParseUint s1 base bitSize with
      | (_, Some ErrSyntax) => (0, Some ErrSyntax)
      | (_, Some ErrBase) => (0, Some ErrBase)
      | (_, Some ErrBitSize) => (0, Some ErrBitSize)
      | (un, _) =>
          let bitSize := if bitSize =? 0 then 64 else bitSize in
          let cutoff := 2 ^ (bitSize - 1) in
          if negb neg && (cutoff <=? un) then (cutoff - 1, Some ErrRange)
          else if neg && (cutoff <? un) then (- cutoff, Some ErrRange)
          else (if neg then - un else un, None)
      end
  end.

(** [strconv.Itoa(i)], that is [FormatInt(int64(i), 10)]: the decimal
    digits, after a minus sign for a negative [i]. *)
Definition Itoa (i : Z) : string :=
  if i <? 0 then String "-" (formatBits (- i) 10) else formatBits i 10.

(** The digit loop of the fast path of [Atoi]: [ch -= '0'] on a byte, and
    no other test than [ch > 9].  At most 18 digits are read, so the [int]
    cannot overflow. *)
Fixpoint Atoi_loop (s : string) (n : Z) : option Z :=
  match s with
  | EmptyString => Some n
  | String ch r =>
      let d := (byte ch - 48) mod 256 in
      if 9 <? d then None else Atoi_loop r (n * 10 + d)
  end.

(** [strconv.Atoi(s)], returning [(value, err)]: the fast path for texts of
    1 to 18 bytes, [ParseInt(s, 10, 0)] for the others. *)
Definition Atoi (s : string) : Z * option NumError :=
  let sLen := Z.of_nat (String.length s) in
  if (0 <? sLen) && (sLen <? 19)
  then
    match s with
    | EmptyString => (0, Some ErrSyntax)
    | String c0 r0 =>
        let signed := (byte c0 =? 45) || (byte c0 =? 43) in
        let digits := if signed then r0 else s in
        if signed && (Z.of_nat (String.length digits) <? 1)
        then (0, Some ErrSyntax)
        else match Atoi_loop digits 0 with
             | None => (0, Some ErrSyntax)
             | Some n => (if byte c0 =? 45 then - n else n, None)
             end
    end
  else ParseInt s 10 0.

End strconv.

(** ** Package fmt *)

Module fmt.

(** [fmt.Sprintf("%d", v)] for an integer [v] of any integer kind: the
    decimal digits, after a minus sign when [v] is negative.  The verb
    does not go through the [String] method of the value. *)
Definition Sprintf_d (v : Z) : string :=
  if v <? 0
  then String "-" (strconv.formatBits (- v) 10)
  else strconv.formatBits v 10.

End fmt.

(** ** Package reflect, as far as package enum looks at it *)

Module reflect.

(** The kinds an enum type can have (signed, unsigned, string). *)
Inductive Kind : Type :=
| Int | Int8 | Int16 | Int32 | Int64
| Uint | Uint8 | Uint16 | Uint32 | Uint64 | Uintptr
| StringKind.

Definition Kind_eqb (a b : Kind) : bool :=
  match a, b with
  | Int, Int | Int8, Int8 | Int16, Int16 | Int32, Int32 | Int64, Int64
  | Uint, Uint | Uint8, Uint8 | Uint16, Uint16 | Uint32, Uint32
  | Uint64, Uint64 | Uintptr, Uintptr | StringKind, StringKind => true
  | _, _ => false
  end.

(** [Type.Size()], in bytes (a string header is two words). *)
Definition Size (k : Kind) : Z :=
  match k with
  | Int8 | Uint8 => 1
  | Int16 | Uint16 => 2
  | Int32 | Uint32 => 4
  | Int | Int64 | Uint | Uint64 | Uintptr => 8
  | StringKind => 16
  end.

Definition is_unsigned (k : Kind) : bool :=
  match k with
  | Uint | Uint8 | Uint16 | Uint32 | Uint64 | Uintptr => true
  | _ => false
  end.

Definition is_signed (k : Kind) : bool :=
  match k with
  | Int | Int8 | Int16 | Int32 | Int64 => true
  | _ => false
  end.

(** A value of the enum type, boxed in an [interface{}]: its underlying
    integer or string.  All values in one model have the enum type as
    their dynamic type. *)
Inductive Value : Type :=
| IntV (z : Z)
| StrV (s : string).

(** [==] on two interfaces holding values of the enum type. *)
Definition Value_eqb (a b : Value) : bool :=
  match a, b with
  | IntV x, IntV y => x =? y
  | StrV x, StrV y => String.eqb x y
  | _, _ => false
  end.

(** A result of a method called on the zero receiver: either a value of
    the enum type itself, or a value of another type, of which the model
    keeps what [Convert(enumType)] makes of it ([None]: [Convert] panics,
    as it does from a string or a bool to an integer type). *)
Inductive ResultVal : Type :=
| OfEnumType (v : Value)
| OfOtherType (converted : option Value).

(** One exported method of the enum type, as [Type.Method(i)] shows it:
    its name, the number of its parameters besides the receiver, and its
    results. *)
Record Method : Type := {
  Name : string;
  Params : nat;
  Results : list ResultVal
}.

(** [m.Type.NumIn()] counts the receiver. *)
Definition NumIn (m : Method) : nat := S (Params m).
Definition NumOut (m : Method) : nat := List.length (Results m).

(** [m.Type.Out(0) == enumType]. *)
Definition Out0IsEnumType (m : Method) : bool :=
  match Results m with
  | OfEnumType _ :: _ => true
  | _ => false
  end.

(** A [reflect.Type] of an enum type [T] (the [Elem()] of the [*T] the
    parsing functions receive): methods in [Method(i)] order. *)
Record RType : Type := {
  TName : string;
  TKind : Kind;
  Methods : list Method
}.

(** [Type.MethodByName]. *)
Definition MethodByName (T : RType) (name : string) : option Method :=
  find (fun m => String.eqb (Name m) name) (Methods T).

(** [Value.Uint()] on a value of kind [k]: panics unless [k] is an
    unsigned kind. *)
Definition Value_Uint (k : Kind) (v : Value) : outcome Z :=
  match v with
  | IntV z => if is_unsigned k then Returns z else Panics
  | StrV _ => Panics
  end.

(** [Value.SetInt(x)] and [Value.SetUint(x)] on the zero value of kind
    [k], followed by [Interface()]: the value is cut to the kind's width. *)
Definition Value_SetInt (k : Kind) (x : Z) : outcome Value :=
  if is_signed k
  then let w := 2 ^ (Size k * 8) in
       Returns (IntV ((x + w / 2) mod w - w / 2))
  else Panics.

Definition Value_SetUint (k : Kind) (x : Z) : outcome Value :=
  if is_unsigned k
  then Returns (IntV (x mod 2 ^ (Size k * 8)))
  else Panics.

End reflect.

(** ** Package enum *)

Module enum.
Import reflect.

(** The error [fmt.Errorf("couldn't parse %q into a %q", s, name)],
    kept as the two operands of the format. *)
Inductive error : Type :=
| CouldntParse (text : string) (typeName : string).

(** [SymbolInfo]: the callback of [GetSymbols].  A Go closure updates the
    variables it captured; [St] is their state. *)
Definition SymbolInfo (St : Type) : Type :=
  string -> Value -> St -> outcome (bool * St).

Definition isValidEnumSymbolMethod (m : Method) : bool :=
  Nat.eqb (NumIn m) 1 && Nat.eqb (NumOut m) 1 && Out0IsEnumType m.

(** [method.Func.Call(args[:])[0].Convert(enumType).Interface()] with the
    one argument [reflect.Zero(enumType)]: [Call] panics when the method
    wants more arguments, the index panics when there is no result, and
    [Convert] panics when the result does not convert. *)
Definition callMethod (m : Method) : outcome Value :=
  if negb (Nat.eqb (NumIn m) 1) then Panics
  else match Results m with
       | [] => Panics
       | OfEnumType v :: _ => Returns v
       | OfOtherType (Some v) :: _ => Returns v
       | OfOtherType None :: _ => Panics
       end.

Fixpoint GetSymbols_loop {St : Type} (ms : list Method)
         (esi : SymbolInfo St) (st : St) : outcome St :=
  match ms with
  | [] => Returns st
  | method :: rest =>
      if negb (isValidEnumSymbolMethod method)
      then GetSymbols_loop rest esi st
      else
        value <- callMethod method ;;
        r <- esi (Name method) value st ;;
        if fst r then Returns (snd r)
        else GetSymbols_loop rest esi (snd r)
  end.

Definition GetSymbols {St : Type} (enumType : RType)
           (esi : SymbolInfo St) (st : St) : outcome St :=
  GetSymbols_loop (Methods enumType) esi st.

(** [String]; the closure's state is [symbolResult]. *)
Definition String (enumValue : Value) (enumType : RType) : outcome string :=
  GetSymbols enumType
    (fun symbol value symbolResult =>
       if Value_eqb value enumValue
       then Returns (true, symbol)
       else Returns (false, symbolResult))
    EmptyString.

(** [StringInt], for an integer [intValue] of the enum type. *)
Definition StringInt (intValue : Z) (enumType : RType) : outcome string :=
  symbolName <- String (IntV intValue) enumType ;;
  if negb (String.eqb symbolName EmptyString) then Returns symbolName
  else Returns (fmt.Sprintf_d intValue).

(** The closure of [StringUintFlags]; its state is
    [(bitsFound, symbolNames)]. *)
Definition flagsCallback (intValue : Z) (enumType : RType)
  : SymbolInfo (Z * strings.Builder) :=
  fun symbolName symbolValue st =>
    let '(bitsFound, symbolNames) := st in
    symVal <- Value_Uint (TKind enumType) symbolValue ;;
    if (intValue =? 0) && (symVal =? 0)
    then Returns (true, (bitsFound, strings.WriteString symbolNames symbolName))
    else if negb (symVal =? 0) && (Z.land intValue symVal =? symVal)
    then
      let bitsFound := Z.lor bitsFound symVal in
      let symbolNames :=
        if 0 <? strings.Len symbolNames
        then strings.WriteString symbolNames ", "
        else symbolNames in
      Returns (false, (bitsFound, strings.WriteString symbolNames symbolName))
    else Returns (false, (bitsFound, symbolNames)).

Definition StringUintFlags (intValue : Z) (enumType : RType) (intBase : Z)
  : outcome string :=
  st <- GetSymbols enumType (flagsCallback intValue enumType) (0, EmptyString) ;;
  let '(bitsFound, symbolNames) := st in
  if negb (bitsFound =? intValue)
  then
    let symbolNames :=
      if 0 <? strings.Len symbolNames
      then strings.WriteString symbolNames ", "
      else symbolNames in
    let symbolNames := strings.WriteString symbolNames "0x" in
    digits <- strconv.FormatUint (Z.lxor intValue bitsFound) intBase ;;
    Returns (strings.WriteString symbolNames digits)
  else Returns symbolNames.

(** [findMethod]; [None] is the result [(reflect.Method{}, false)]. *)
Definition findMethod (enumType : RType) (methodName : string)
           (caseInsensitive : bool) : option Method :=
  if negb caseInsensitive then MethodByName enumType methodName
  else
    let methodName := strings.ToLower methodName in
    find (fun method => String.eqb (strings.ToLower (Name method)) methodName)
         (Methods enumType).

(** [Parse], returning [(value, err)]. *)
Definition Parse (enumType : RType) (s : string) (caseInsensitive : bool)
  : outcome (option Value * option error) :=
  match findMethod enumType s caseInsensitive with
  | Some method =>
      v <- callMethod method ;;
      Returns (Some v, None)
  | None => Returns (None, Some (CouldntParse s (TName enumType)))
  end.

Definition is_nil {A : Type} (x : option A) : bool :=
  match x with
  | None => true
  | Some _ => false
  end.

(** [ParseInt], returning [(enumVal, err)]. *)
Definition ParseInt (enumType : RType) (s : string)
           (caseInsensitive strict : bool)
  : outcome (option Value * option error) :=
  r <- Parse enumType s caseInsensitive ;;
  let '(enumVal, err) := r in
  if is_nil err || strict then Returns (enumVal, err)
  else
    let kind := TKind enumType in
    if is_signed kind
    then
      let '(intVal, parseErr) :=
        strconv.ParseInt s 0 (Size (TKind enumType) * 8) in
      if is_nil parseErr
      then value <- Value_SetInt kind intVal ;; Returns (Some value, None)
      else Returns (enumVal, err)
    else
      let '(intVal, parseErr) :=
        strconv.ParseUint s 0 (Size (TKind enumType) * 8) in
      if is_nil parseErr
      then value <- Value_SetUint kind intVal ;; Returns (Some value, None)
      else Returns (enumVal, err).

(** The loop of [ParseUintFlags] over the pieces of the split. *)
Fixpoint ParseUintFlags_loop (enumType : RType) (caseInsensitive : bool)
         (pieces : list string) (val : Z) : outcome (Z * option error) :=
  match pieces with
  | [] => Returns (val, None)
  | f :: rest =>
      let f := strings.TrimSpace f in
      r <- Parse enumType f caseInsensitive ;;
      let '(v, err) := r in
      if is_nil err
      then
        u <- match v with
             | Some x => Value_Uint (TKind enumType) x
             | None => Panics
             end ;;
        ParseUintFlags_loop enumType caseInsensitive rest (Z.lor val u)
      else
        let '(i, err) := strconv.ParseUint f 0 (Size (TKind enumType) * 8) in
        if is_nil err
        then ParseUintFlags_loop enumType caseInsensitive rest (Z.lor val i)
        else Returns (0, Some (CouldntParse f (TName enumType)))
  end.

(** [ParseUintFlags], returning [(value, err)]. *)
Definition ParseUintFlags (enumType : RType) (s : string)
           (caseInsensitive : bool) : outcome (Z * option error) :=
  ParseUintFlags_loop enumType caseInsensitive (strings.Split s ",") 0.

End enum.

(** ** The enum types of the package's examples *)

Module examples.
Import reflect.

Definition symbol (name : string) (v : Value) : Method :=
  {| Name := name; Params := 0; Results := [OfEnumType v] |}.

(** [func (c T) String() string] on an integer enum: the string it
    returns cannot be converted to the enum type. *)
Definition stringer (name : string) : Method :=
  {| Name := name; Params := 0; Results := [OfOtherType None] |}.

(** [type Color int16] with None, Red, Green, Blue, String, StringFast. *)
Definition Color : RType :=
  {| TName := "Color"; TKind := Int16;
     Methods := [ symbol "Blue" (IntV 3); symbol "Green" (IntV 2);
                  symbol "None" (IntV 0); symbol "Red" (IntV 1);
                  stringer "String"; stringer "StringFast" ] |}.

(** [type Color uint8], the variant of Color in the package's test file. *)
Definition Color8 : RType :=
  {| TName := "Color"; TKind := Uint8;
     Methods := [ symbol "Blue" (IntV 3); symbol "Green" (IntV 2);
                  symbol "None" (IntV 0); symbol "Red" (IntV 1);
                  stringer "String" ] |}.

(** [type Access uint32] with None, Read, Write, Execute,
    [IsSet(a2 Access) bool] and String. *)
Definition Access : RType :=
  {| TName := "Access"; TKind := Uint32;
     Methods := [ symbol "Execute" (IntV 4);
                  {| Name := "IsSet"; Params := 1;
                     Results := [OfOtherType None] |};
                  symbol "None" (IntV 0); symbol "Read" (IntV 1);
                  stringer "String"; symbol "Write" (IntV 2) ] |}.

(** [type Protocol string]; [String] on the zero receiver is the empty
    string, which converts to the empty [Protocol]. *)
Definition Protocol : RType :=
  {| TName := "Protocol"; TKind := StringKind;
     Methods := [ symbol "None" (StrV "(none)");
                  {| Name := "String"; Params := 0;
                     Results := [OfOtherType (Some (StrV EmptyString))] |};
                  symbol "TCP" (StrV "Transmission Control Protocol");
                  symbol "UDP" (StrV "User Datagram Protocol") ] |}.

(** A flag type without a zero-valued symbol. *)
Definition Perm : RType :=
  {| TName := "Perm"; TKind := Uint8;
     Methods := [ symbol "Read" (IntV 1); symbol "Write" (IntV 2) ] |}.

(** Two symbols whose names differ by case only. *)
Definition Shade : RType :=
  {| TName := "Shade"; TKind := Uint8;
     Methods := [ symbol "RED" (IntV 2); symbol "Red" (IntV 1) ] |}.

End examples.


(** ** The methods the examples put on their enum types *)

Module enum_test.
Import reflect.

(** [func (c Color) String() string]. *)
Definition Color_String (c : Z) : outcome string :=
  enum.StringInt c examples.Color.

(** [func (c *Color) Parse(s string) error]: the receiver after the call
    and the error.  The receiver is assigned only when [enumVal] is not
    nil. *)
Definition Color_Parse (c : Z) (s : string) : outcome (Z * option enum.error) :=
  r <- enum.ParseInt examples.Color s true false ;;
  let '(enumVal, err) := r in
  match enumVal with
  | Some (IntV z) => Returns (z, err)
  | Some (StrV _) => Panics
  | None => Returns (c, err)
  end.

(** [func (a Access) String() string]. *)
Definition Access_String (a : Z) : outcome string :=
  enum.StringUintFlags a examples.Access 16.

(** [func (a *Access) Parse(s string) error]: the receiver after the call
    and the error; [Access(v)] cuts the [uint64] to 32 bits. *)
Definition Access_Parse (a : Z) (s : string) : outcome (Z * option enum.error) :=
  r <- enum.ParseUintFlags examples.Access s true ;;
  let '(v, err) := r in
  if enum.is_nil err then Returns (v mod 2 ^ 32, err) else Returns (a, err).

(** [ColorIdiomaticEnum]: None, Red, Green, Blue are the constants 0..3. *)
Definition ColorIdiomaticEnum_String (c : Z) : string :=
  if c =? 0 then "None"
  else if c =? 1 then "Red"
  else if c =? 2 then "Green"
  else if c =? 3 then "Blue"
  else "Unknown".

(** [func (c *ColorIdiomaticEnum) Parse(s string) error]: the receiver
    after the call and the error.  The receiver is set to [ColorNone]
    before the switch. *)
Definition ColorIdiomaticEnum_Parse (c : Z) (s : string)
  : Z * option enum.error :=
  let c := 0 in
  if String.eqb s "Red" then (1, None)
  else if String.eqb s "Green" then (2, None)
  else if String.eqb s "Blue" then (3, None)
  else (c, Some (enum.CouldntParse s "Color")).

(** A Go map, as far as assignment and lookup go: the assignments made,
    the latest first; a lookup finds the latest assignment to the key. *)
Definition GoMap (K V : Type) : Type := list (K * V).

Definition map_assign {K V : Type} (m : GoMap K V) (k : K) (v : V)
  : GoMap K V :=
  (k, v) :: m.

Definition map_lookup {K V : Type} (eqb : K -> K -> bool)
           (m : GoMap K V) (k : K) : option V :=
  match find (fun kv => eqb (fst kv) k) m with
  | Some kv => Some (snd kv)
  | None => None
  end.

(** [colorTables]: [stringTable] and [parseTable]. *)
Definition colorTablesT : Type := GoMap Z string * GoMap string Z.

(** [func init()]: fills the two tables from [GetSymbols]; the closure's
    state is the tables. *)
Definition init : outcome colorTablesT :=
  enum.GetSymbols examples.Color
    (fun enumSymbolName enumSymbolValue tables =>
       match enumSymbolValue with
       | IntV z =>
           Returns (false,
                    (map_assign (fst tables) z enumSymbolName,
                     map_assign (snd tables) enumSymbolName z))
       | StrV _ => Panics
       end)
    ([], []).

(** [func (c Color) StringFast() string]. *)
Definition Color_StringFast (colorTables : colorTablesT) (c : Z) : string :=
  match map_lookup Z.eqb (fst colorTables) c with
  | Some s => s
  | None => strconv.Itoa c
  end.

(** [func (c *Color) ParseFast(s string) error]: the receiver after the
    call and the error; [Color(n)] cuts the [int] to 16 bits. *)
Definition Color_ParseFast (colorTables : colorTablesT) (c : Z) (s : string)
  : Z * option strconv.NumError :=
  match map_lookup String.eqb (snd colorTables) s with
  | Some enumVal => (enumVal, None)
  | None =>
      let '(n, err) := strconv.Atoi s in
      if enum.is_nil err
      then ((n + 2 ^ 15) mod 2 ^ 16 - 2 ^ 15, None)
      else (c, err)
  end.

End enum_test.


(** * Specification vocabulary *)

Import reflect.
Local Open Scope list_scope.

(** The value of a symbol method: what the method returns on the zero
    receiver, for the methods [isValidEnumSymbolMethod] accepts. *)
Definition symbolValue (m : Method) : option Value :=
  if enum.isValidEnumSymbolMethod m
  then match Results m with
       | OfEnumType v :: _ => Some v
       | _ => None
       end
  else None.

Definition symbols_of (ms : list Method) : list (string * Value) :=
  flat_map (fun m => match symbolValue m with
                     | Some v => [(Name m, v)]
                     | None => []
                     end) ms.

(** The symbols of an enum type, in enumeration order. *)
Definition symbols (T : RType) : list (string * Value) :=
  symbols_of (Methods T).

(** One invocation of a callback: the symbol it was given and its answer. *)
Record visit : Type := {
  visit_name : string;
  visit_value : Value;
  visit_stop : bool
}.

Definition visit_symbol (e : visit) : string * Value :=
  (visit_name e, visit_value e).

(** A callback that also appends each of its invocations to a log. *)
Definition logged {St : Type} (esi : enum.SymbolInfo St)
  : enum.SymbolInfo (St * list visit) :=
  fun name value st =>
    r <- esi name value (fst st) ;;
    Returns (fst r,
             (snd r,
              snd st ++ [{| visit_name := name; visit_value := value;
                            visit_stop := fst r |}])).

(** A callback that always returns, given as a function. *)
Definition returning {St : Type} (f : string -> Value -> St -> bool * St)
  : enum.SymbolInfo St :=
  fun name value st => Returns (f name value st).

(** * Typing of symbol values *)

(** The integers a kind can hold. *)
Definition in_range (k : Kind) (z : Z) : bool :=
  if is_unsigned k then (0 <=? z) && (z <? 2 ^ (Size k * 8))
  else if is_signed k
       then (- 2 ^ (Size k * 8 - 1) <=? z) && (z <? 2 ^ (Size k * 8 - 1))
       else false.

Definition has_kind (k : Kind) (v : Value) : bool :=
  match v with
  | IntV z => in_range k z
  | StrV _ => Kind_eqb k StringKind
  end.

(** Every symbol of [T] returns a value of [T]'s kind, as Go's type checker
    ensures. *)
Definition well_typed (T : RType) : bool :=
  forallb (fun nv => has_kind (TKind T) (snd nv)) (symbols T).

(** The underlying unsigned integer of a flag value. *)
Definition uint_of (v : Value) : Z :=
  match v with
  | IntV z => z
  | StrV _ => 0
  end.

Definition is_zero_flag (nv : string * Value) : bool :=
  uint_of (snd nv) =? 0.

(** The symbols [StringUintFlags] names for a non-zero [intValue]. *)
Definition matched (intValue : Z) (syms : list (string * Value))
  : list (string * Value) :=
  filter (fun nv => negb (uint_of (snd nv) =? 0)
                    && (Z.land intValue (uint_of (snd nv)) =? uint_of (snd nv)))
         syms.

(** The union of the bits of a list of symbols. *)
Definition union_bits (syms : list (string * Value)) (acc : Z) : Z :=
  fold_left (fun b nv => Z.lor b (uint_of (snd nv))) syms acc.

(** What the builder holds after the names were written to it the way the
    closure of [StringUintFlags] writes them. *)
Definition write_names (b : strings.Builder) (names : list string)
  : strings.Builder :=
  fold_left (fun b n =>
               strings.WriteString
                 (if 0 <? strings.Len b then strings.WriteString b ", " else b)
                 n)
            names b.

Definition visited (stop : bool) (nv : string * Value) : visit :=
  {| visit_name := fst nv; visit_value := snd nv; visit_stop := stop |}.

(** * Method names *)

Definition is_ascii_letter (c : ascii) : bool :=
  strings.is_upper c || ((97 <=? byte c) && (byte c <=? 122)).

(** [token.IsExported] on ASCII names: the first byte is an upper-case
    letter.  [Type.Method(i)] lists exported methods only. *)
Definition IsExported (name : string) : bool :=
  match name with
  | String c _ => strings.is_upper c
  | EmptyString => false
  end.

Definition exported_names (T : RType) : bool :=
  forallb (fun m => IsExported (Name m)) (Methods T).

Definition starts_with_letter (s : string) : bool :=
  match s with
  | String c _ => is_ascii_letter c
  | EmptyString => false
  end.

Definition is_ident_char (c : ascii) : bool :=
  is_ascii_letter c || strconv.is_digit (byte c) || (byte c =? 95).

Fixpoint all_chars (p : ascii -> bool) (s : string) : bool :=
  match s with
  | EmptyString => true
  | String c r => p c && all_chars p r
  end.

(** [token.IsIdentifier] on ASCII names: a letter or underscore, then
    letters, digits and underscores. *)
Definition IsIdentifier (name : string) : bool :=
  match name with
  | String c r => (is_ascii_letter c || (byte c =? 95))
                  && all_chars is_ident_char r
  | EmptyString => false
  end.

Definition identifier_names (T : RType) : bool :=
  forallb (fun m => IsIdentifier (Name m)) (Methods T).

Fixpoint distinct (l : list string) : bool :=
  match l with
  | [] => true
  | x :: r => negb (existsb (String.eqb x) r) && distinct r
  end.

(** The form of a method name that [findMethod] compares. *)
Definition lookup_key (caseInsensitive : bool) (m : Method) : string :=
  if caseInsensitive then strings.ToLower (Name m) else Name m.

(** No two methods have the same name under the case rule.  Without
    [caseInsensitive] this holds of every Go type. *)
Definition distinct_names (caseInsensitive : bool) (T : RType) : bool :=
  distinct (map (lookup_key caseInsensitive) (Methods T)).

(** The bit size the parsing functions pass to package strconv. *)
Definition bitSize (T : RType) : Z := Size (TKind T) * 8.

(** The numeric fallback of lenient [ParseInt]: the literal [s] read with
    the signedness and width of the enum type, when it is one. *)
Definition numericLiteral (T : RType) (s : string) : option Z :=
  let r := if is_signed (TKind T)
           then strconv.ParseInt s 0 (bitSize T)
           else strconv.ParseUint s 0 (bitSize T) in
  if enum.is_nil (snd r) then Some (fst r) else None.

(** The first method whose lower-cased name is the lower-cased text. *)
Definition first_lowercase_match (T : RType) (s : string) : option Method :=
  find (fun m => String.eqb (strings.ToLower (Name m)) (strings.ToLower s))
       (Methods T).

(** A trimmed piece of a flags text stands for the bits [z]: it is the name
    of a method whose value has these bits, or it names no method and is a
    literal of the type's width. *)
Definition piece_bits (T : RType) (caseInsensitive : bool)
           (p : string) (z : Z) : Prop :=
  (exists v, enum.Parse T p caseInsensitive = Returns (Some v, None)
             /\ Value_Uint (TKind T) v = Returns z)
  \/ (exists e, enum.Parse T p caseInsensitive = Returns (None, Some e)
                /\ strconv.ParseUint p 0 (Size (TKind T) * 8) = (z, None)).

(** The bits of [intValue] that no matched symbol covers. *)
Definition unmatched_bits (T : RType) (intValue : Z) : Z :=
  Z.lxor intValue (union_bits (matched intValue (symbols T)) 0).

(** Every method whose call on the zero receiver returns, returns a value
    of [T]'s kind: [Convert(enumType)] produces values of the enum type. *)
Definition results_typed (T : RType) : bool :=
  forallb (fun m => match enum.callMethod m with
                    | Returns v => has_kind (TKind T) v
                    | Panics => true
                    end) (Methods T).

(** Every exported method of [T] is a symbol. *)
Definition only_symbols (T : RType) : bool :=
  forallb enum.isValidEnumSymbolMethod (Methods T).

(** The name of a symbol matches the text under the case rule. *)
Definition name_matches (caseInsensitive : bool) (s : string)
           (nv : string * Value) : bool :=
  if caseInsensitive
  then String.eqb (strings.ToLower (fst nv)) (strings.ToLower s)
  else String.eqb (fst nv) s.

(** The rest of the flags loop after some pieces: it goes on from their
    value, or their error or panic is the result. *)
Definition after_pieces (r : outcome (Z * option enum.error))
           (k : Z -> outcome (Z * option enum.error))
  : outcome (Z * option enum.error) :=
  match r with
  | Returns (x, None) => k x
  | other => other
  end.

(** A text of ASCII bytes only. *)
Definition is_ascii (s : string) : bool :=
  all_chars (fun c => byte c <? 128) s.

(** The lookup of [s] among the methods of [T] lowers no byte outside
    ASCII: it is the exact lookup, which compares bytes, or the names are
    ASCII identifiers and the text is ASCII. *)
Definition lowering_is_ascii (caseInsensitive : bool) (T : RType)
           (s : string) : bool :=
  negb caseInsensitive || (identifier_names T && is_ascii s).

(** The two tests [ParseUint] makes on a bit size between 1 and 64. *)
Ltac bit_size_tests bits :=
  replace ((bits <? 0) || (64 <? bits)) with false
    by (symmetry; apply orb_false_iff; split; apply Z.ltb_ge; lia);
  try replace (bits =? 0) with false by (symmetry; apply Z.eqb_neq; lia).

(** * The symbol enumerator *)

Lemma callMethod_symbol (m : Method) (v : Value) :
  symbolValue m = Some v -> enum.callMethod m = Returns v.
Proof.
  unfold symbolValue, enum.isValidEnumSymbolMethod, enum.callMethod.
  destruct (Nat.eqb (NumIn m) 1) eqn:Hin; simpl; [|discriminate].
  destruct (Nat.eqb (NumOut m) 1 && Out0IsEnumType m); [|discriminate].
  destruct (Results m) as [|[w|c] rs]; congruence.
Qed.

Lemma symbolValue_valid (m : Method) :
  enum.isValidEnumSymbolMethod m = true -> exists v, symbolValue m = Some v.
Proof.
  unfold symbolValue. intros Hv. rewrite Hv.
  unfold enum.isValidEnumSymbolMethod, Out0IsEnumType in Hv.
  destruct (Results m) as [|[w|c] rs].
  - rewrite andb_false_r in Hv. discriminate.
  - now exists w.
  - rewrite andb_false_r in Hv. discriminate.
Qed.

Lemma symbolValue_invalid (m : Method) :
  enum.isValidEnumSymbolMethod m = false -> symbolValue m = None.
Proof. unfold symbolValue. now intros ->. Qed.

Lemma GetSymbols_loop_visits (St : Type)
      (f : string -> Value -> St -> bool * St) (ms : list Method) :
  forall (st : St) (log0 : list visit),
  exists st' log,
    enum.GetSymbols_loop ms (logged (returning f)) (st, log0)
      = Returns (st', log0 ++ log)
    /\ enum.GetSymbols_loop ms (returning f) st = Returns st'
    /\ exists rest,
        symbols_of ms = map visit_symbol log ++ rest
        /\ (rest <> [] ->
            exists pre e, log = pre ++ [e] /\ visit_stop e = true)
        /\ (forall pre e post,
              log = pre ++ e :: post -> visit_stop e = true -> post = []).
Proof.
  induction ms as [|m ms IH]; intros st log0.
  - exists st, []. rewrite app_nil_r. repeat split.
    exists []. repeat split.
    + intros H. now contradiction H.
    + intros [|? ?] e post H; discriminate H.
  - cbn [enum.GetSymbols_loop symbols_of flat_map].
    destruct (enum.isValidEnumSymbolMethod m) eqn:Hv; cbn [negb].
    + destruct (symbolValue_valid m Hv) as [v Hs].
      rewrite Hs, (callMethod_symbol m v Hs).
      unfold logged at 1, returning at 1 3. cbn [bind fst snd].
      destruct (f (Name m) v st) as [stop st1] eqn:Hf. cbn [fst snd].
      destruct stop.
      * exists st1, [{| visit_name := Name m; visit_value := v;
                        visit_stop := true |}].
        repeat split.
        exists (symbols_of ms). repeat split.
        -- intros _. now exists [], {| visit_name := Name m; visit_value := v;
                                       visit_stop := true |}.
        -- intros [|x [|y pre]] e post H; inversion H; reflexivity.
      * destruct (IH st1 (log0 ++ [{| visit_name := Name m; visit_value := v;
                                      visit_stop := false |}]))
          as (st' & log & Hl & Hp & rest & Hsym & Hrest & Hstop).
        exists st', ({| visit_name := Name m; visit_value := v;
                        visit_stop := false |} :: log).
        split; [|split]; [| exact Hp |].
        { rewrite Hl, <- app_assoc. reflexivity. }
        exists rest. split; [|split].
        -- cbn. unfold symbols_of in Hsym. rewrite Hsym. reflexivity.
        -- intros Hne. destruct (Hrest Hne) as (pre & e & -> & He).
           now exists ({| visit_name := Name m; visit_value := v;
                          visit_stop := false |} :: pre), e.
        -- intros [|x pre] e post H He.
           ++ inversion H; subst e. discriminate He.
           ++ inversion H; subst. eapply Hstop; eauto.
    + rewrite (symbolValue_invalid m Hv). cbn [app].
      apply IH.
Qed.

(** C8. [GetSymbols] calls the callback on the symbols of the type in
    enumeration order, each at most once: the symbols visited are a prefix
    of the type's symbols.  An invocation that answers stop is the last
    one; enumeration ends before the last symbol only after such an answer;
    and when every answer is continue, every symbol is visited. *)
Theorem GetSymbols_visits_in_order_until_stop
        (St : Type) (T : RType)
        (f : string -> Value -> St -> bool * St) (st : St) :
  exists st' log,
    enum.GetSymbols T (logged (returning f)) (st, []) = Returns (st', log)
    /\ enum.GetSymbols T (returning f) st = Returns st'
    /\ (exists rest, symbols T = map visit_symbol log ++ rest
          /\ (rest <> [] ->
              exists pre e, log = pre ++ [e] /\ visit_stop e = true))
    /\ (forall pre e post,
          log = pre ++ e :: post -> visit_stop e = true -> post = [])
    /\ (forallb (fun e => negb (visit_stop e)) log = true ->
        map visit_symbol log = symbols T).
Proof.
  destruct (GetSymbols_loop_visits St f (Methods T) st [])
    as (st' & log & Hl & Hp & rest & Hsym & Hrest & Hstop).
  exists st', log. cbn [app] in Hl.
  split; [exact Hl|]. split; [exact Hp|].
  split; [exists rest; split; assumption|].
  split; [exact Hstop|].
  intros Hall. unfold symbols. rewrite Hsym.
  destruct rest as [|r rest]; [now rewrite app_nil_r|].
  destruct Hrest as (pre & e & -> & He); [discriminate|].
  rewrite forallb_app in Hall. cbn in Hall. rewrite He in Hall.
  rewrite andb_false_r in Hall. discriminate.
Qed.

Lemma GetSymbols_visits_in_order_until_stop_witness :
  exists st' log,
    enum.GetSymbols examples.Color
      (logged (returning (fun n _ (count : nat) =>
                            (String.eqb n "None", S count))))
      (O, [])
    = Returns (st', log)
    /\ st' = 3%nat
    /\ map visit_symbol log
       = [("Blue"%string, IntV 3); ("Green"%string, IntV 2);
          ("None"%string, IntV 0)].
Proof.
  destruct (GetSymbols_visits_in_order_until_stop
              nat examples.Color
              (fun n _ (count : nat) => (String.eqb n "None", S count)) O)
    as (st' & log & Hrun & _).
  exists st', log. split; [exact Hrun|].
  vm_compute in Hrun. inversion Hrun. split; reflexivity.
Defined.

(** * The flag formatter *)

Lemma logged_erase (St : Type) (esi : enum.SymbolInfo St) (ms : list Method) :
  forall (st : St) (log0 : list visit),
    enum.GetSymbols_loop ms esi st
    = match enum.GetSymbols_loop ms (logged esi) (st, log0) with
      | Returns r => Returns (fst r)
      | Panics => Panics
      end.
Proof.
  induction ms as [|m ms IH]; intros st log0; cbn [enum.GetSymbols_loop].
  - reflexivity.
  - destruct (enum.isValidEnumSymbolMethod m); cbn [negb]; [|apply IH].
    destruct (enum.callMethod m) as [v|]; cbn [bind]; [|reflexivity].
    unfold logged at 1. cbn [fst snd].
    destruct (esi (Name m) v st) as [[stop st1]|]; cbn [bind fst snd];
      [|reflexivity].
    destruct stop; [reflexivity|]. apply IH.
Qed.

Lemma has_kind_unsigned (k : Kind) (v : Value) :
  is_unsigned k = true -> has_kind k v = true ->
  Value_Uint k v = Returns (uint_of v) /\ v = IntV (uint_of v)
  /\ 0 <= uint_of v < 2 ^ (Size k * 8).
Proof.
  intros Hk. destruct v as [z|s]; cbn.
  - unfold in_range. rewrite Hk. intros H.
    apply andb_prop in H. destruct H as [H1 H2].
    apply Z.leb_le in H1. apply Z.ltb_lt in H2. auto.
  - destruct k; discriminate.
Qed.

Lemma symbols_of_cons (m : Method) (ms : list Method) :
  symbols_of (m :: ms)
  = match symbolValue m with
    | Some v => (Name m, v) :: symbols_of ms
    | None => symbols_of ms
    end.
Proof.
  unfold symbols_of. cbn [flat_map]. now destruct (symbolValue m).
Qed.

Lemma symbolValue_None_invalid (m : Method) :
  symbolValue m = None -> enum.isValidEnumSymbolMethod m = false.
Proof.
  intros H. destruct (enum.isValidEnumSymbolMethod m) eqn:Hv; [|reflexivity].
  destruct (symbolValue_valid m Hv) as [v Hs]. congruence.
Qed.

Lemma symbolValue_Some_valid (m : Method) (v : Value) :
  symbolValue m = Some v -> enum.isValidEnumSymbolMethod m = true.
Proof.
  unfold symbolValue. destruct (enum.isValidEnumSymbolMethod m); congruence.
Qed.

Lemma flagsCallback_zero (T : RType) (n : string) (v : Value)
      (bits : Z) (b : strings.Builder) :
  is_unsigned (TKind T) = true -> has_kind (TKind T) v = true ->
  enum.flagsCallback 0 T n v (bits, b)
  = if uint_of v =? 0
    then Returns (true, (bits, strings.WriteString b n))
    else Returns (false, (bits, b)).
Proof.
  intros Hk Hv. destruct (has_kind_unsigned _ _ Hk Hv) as (Hu & _ & _).
  unfold enum.flagsCallback. rewrite Hu. cbn [bind].
  rewrite Z.land_0_l. change (0 =? 0) with true. cbn [andb].
  destruct (uint_of v =? 0) eqn:E; cbn [negb andb]; [reflexivity|].
  rewrite Z.eqb_sym, E. reflexivity.
Qed.

Lemma flagsCallback_nonzero (T : RType) (iv : Z) (n : string) (v : Value)
      (bits : Z) (b : strings.Builder) :
  is_unsigned (TKind T) = true -> has_kind (TKind T) v = true -> iv <> 0 ->
  enum.flagsCallback iv T n v (bits, b)
  = Returns (false,
             if negb (uint_of v =? 0) && (Z.land iv (uint_of v) =? uint_of v)
             then (Z.lor bits (uint_of v),
                   strings.WriteString
                     (if 0 <? strings.Len b
                      then strings.WriteString b ", " else b) n)
             else (bits, b)).
Proof.
  intros Hk Hv Hiv. destruct (has_kind_unsigned _ _ Hk Hv) as (Hu & _ & _).
  unfold enum.flagsCallback. rewrite Hu. cbn [bind].
  apply Z.eqb_neq in Hiv. rewrite Hiv. cbn [andb].
  now destruct (negb (uint_of v =? 0) && (Z.land iv (uint_of v) =? uint_of v)).
Qed.

Lemma loop_skip (St : Type) (esi : enum.SymbolInfo St)
      (m : Method) (ms : list Method) (st : St) :
  symbolValue m = None ->
  enum.GetSymbols_loop (m :: ms) esi st = enum.GetSymbols_loop ms esi st.
Proof.
  intros Hs. cbn [enum.GetSymbols_loop].
  now rewrite (symbolValue_None_invalid m Hs).
Qed.

Lemma loop_step (St : Type) (esi : enum.SymbolInfo St)
      (m : Method) (ms : list Method) (v : Value) (st st1 : St) (stop : bool) :
  symbolValue m = Some v ->
  esi (Name m) v st = Returns (stop, st1) ->
  enum.GetSymbols_loop (m :: ms) esi st
  = if stop then Returns st1 else enum.GetSymbols_loop ms esi st1.
Proof.
  intros Hs He. cbn [enum.GetSymbols_loop].
  rewrite (symbolValue_Some_valid m v Hs), (callMethod_symbol m v Hs).
  cbn [negb bind]. rewrite He. reflexivity.
Qed.

Lemma logged_step (St : Type) (esi : enum.SymbolInfo St)
      (n : string) (v : Value) (st st1 : St) (stop : bool)
      (log0 : list visit) :
  esi n v st = Returns (stop, st1) ->
  logged esi n v (st, log0)
  = Returns (stop, (st1, log0 ++ [visited stop (n, v)])).
Proof. intros He. unfold logged. cbn [fst snd]. rewrite He. reflexivity. Qed.

(** The flags loop when [intValue] is zero: nothing is written before the
    first zero-valued symbol, whose name is written and which ends the
    enumeration. *)
Lemma flags_loop_zero (T : RType) (ms : list Method) :
  is_unsigned (TKind T) = true ->
  forallb (fun nv => has_kind (TKind T) (snd nv)) (symbols_of ms) = true ->
  forall (bits : Z) (b : strings.Builder) (log0 : list visit),
    match find is_zero_flag (symbols_of ms) with
    | Some nv =>
        exists pre post,
          symbols_of ms = pre ++ (fst nv, IntV 0) :: post
          /\ forallb (fun x => negb (is_zero_flag x)) pre = true
          /\ enum.GetSymbols_loop ms (logged (enum.flagsCallback 0 T))
               ((bits, b), log0)
             = Returns ((bits, strings.WriteString b (fst nv)),
                        log0 ++ map (visited false) pre
                             ++ [visited true (fst nv, IntV 0)])
    | None =>
        enum.GetSymbols_loop ms (logged (enum.flagsCallback 0 T))
          ((bits, b), log0)
        = Returns ((bits, b), log0 ++ map (visited false) (symbols_of ms))
    end.
Proof.
  intros Hk. induction ms as [|m ms IH]; intros Hty bits b log0.
  - cbn. now rewrite app_nil_r.
  - rewrite symbols_of_cons in *.
    destruct (symbolValue m) as [v|] eqn:Hs.
    + cbn [forallb snd] in Hty.
      apply andb_prop in Hty. destruct Hty as [Hv Hty].
      pose proof (flagsCallback_zero T (Name m) v bits b Hk Hv) as Hcb.
      destruct (has_kind_unsigned _ _ Hk Hv) as (_ & Hval & _).
      cbn [find]. unfold is_zero_flag at 1. cbn [snd].
      destruct (uint_of v =? 0) eqn:E.
      * apply Z.eqb_eq in E. exists [], (symbols_of ms).
        rewrite (loop_step _ _ m ms v _ _ _ Hs (logged_step _ _ _ _ _ _ _ log0 Hcb)).
        rewrite Hval, E. cbn [fst]. repeat split.
      * rewrite (loop_step _ _ m ms v _ _ _ Hs (logged_step _ _ _ _ _ _ _ log0 Hcb)).
        specialize (IH Hty bits b (log0 ++ [visited false (Name m, v)])).
        destruct (find is_zero_flag (symbols_of ms)) as [nv|].
        -- destruct IH as (pre & post & Hsym & Hpre & Hrun).
           exists ((Name m, v) :: pre), post. split; [|split].
           ++ now rewrite Hsym.
           ++ cbn [forallb]. unfold is_zero_flag at 1. cbn [snd].
              now rewrite E, Hpre.
           ++ etransitivity; [exact Hrun|]. cbn [map].
              now rewrite <- !app_assoc.
        -- etransitivity; [exact IH|]. cbn [map]. now rewrite <- !app_assoc.
    + rewrite loop_skip by exact Hs. now apply IH.
Qed.

(** C4. With [intValue = 0] on a flag type, [StringUintFlags] returns the
    name of the first zero-valued symbol alone; the callback was invoked on
    the symbols up to that one and on no later symbol. *)
Theorem StringUintFlags_zero_returns_first_zero_symbol
        (T : RType) (intBase : Z) (nv : string * Value) :
  is_unsigned (TKind T) = true ->
  well_typed T = true ->
  find is_zero_flag (symbols T) = Some nv ->
  enum.StringUintFlags 0 T intBase = Returns (fst nv)
  /\ exists pre post st log,
      symbols T = pre ++ (fst nv, IntV 0) :: post
      /\ forallb (fun x => negb (is_zero_flag x)) pre = true
      /\ enum.GetSymbols T (logged (enum.flagsCallback 0 T)) ((0, EmptyString), [])
         = Returns (st, log)
      /\ map visit_symbol log = pre ++ [(fst nv, IntV 0)]
      /\ forallb (fun e => negb (visit_stop e)) (removelast log) = true.
Proof.
  intros Hk Hty Hfind.
  pose proof (flags_loop_zero T (Methods T) Hk Hty 0 EmptyString []) as H.
  fold (symbols T) in H. rewrite Hfind in H.
  destruct H as (pre & post & Hsym & Hpre & Hrun).
  split.
  - unfold enum.StringUintFlags, enum.GetSymbols.
    rewrite (logged_erase _ _ _ _ []), Hrun. reflexivity.
  - exists pre, post. eexists. eexists.
    split; [exact Hsym|]. split; [exact Hpre|].
    split; [exact Hrun|]. cbn [app]. split.
    + rewrite map_app, map_map. cbn. f_equal.
      clear. induction pre as [|[n v] pre IHp]; cbn; [reflexivity|].
      now f_equal.
    + rewrite removelast_last. clear. induction pre; cbn; auto.
Qed.

Lemma StringUintFlags_zero_returns_first_zero_symbol_witness :
  is_unsigned (TKind examples.Access) = true
  /\ well_typed examples.Access = true
  /\ find is_zero_flag (symbols examples.Access) = Some ("None"%string, IntV 0)
  /\ enum.StringUintFlags 0 examples.Access 16 = Returns "None"%string.
Proof.
  do 3 (split; [reflexivity|]).
  exact (proj1 (StringUintFlags_zero_returns_first_zero_symbol
                  examples.Access 16 ("None"%string, IntV 0)
                  eq_refl eq_refl eq_refl)).
Defined.

(** * Rendering and parsing numbers *)

Lemma append_assoc (a b c : string) :
  (a ++ (b ++ c) = (a ++ b) ++ c)%string.
Proof. induction a as [|x a IH]; cbn; [reflexivity|now rewrite IH]. Qed.

Lemma append_nil_r (a : string) : (a ++ EmptyString = a)%string.
Proof. induction a as [|x a IH]; cbn; [reflexivity|now rewrite IH]. Qed.

Lemma digit_char_decode (d : Z) :
  0 <= d < 36 ->
  (byte (strconv.digit_char d) =? 95) = false
  /\ strconv.digit_value (byte (strconv.digit_char d)) = Some d.
Proof.
  intros Hd.
  assert (H : forallb (fun n =>
                         negb (byte (strconv.digit_char (Z.of_nat n)) =? 95)
                         && match strconv.digit_value
                                    (byte (strconv.digit_char (Z.of_nat n))) with
                            | Some x => x =? Z.of_nat n
                            | None => false
                            end) (seq 0 36) = true) by (vm_compute; reflexivity).
  rewrite forallb_forall in H.
  specialize (H (Z.to_nat d)). rewrite Z2Nat.id in H by lia.
  assert (Hin : In (Z.to_nat d) (seq 0 36)) by (apply in_seq; lia).
  apply H in Hin. apply andb_prop in Hin. destruct Hin as [H1 H2].
  split.
  - now apply negb_true_iff in H1.
  - destruct (strconv.digit_value _); [|discriminate].
    apply Z.eqb_eq in H2. now subst.
Qed.

Lemma formatBits_loop_app (fuel : nat) :
  forall u b a,
    strconv.formatBits_loop fuel u b a
    = (strconv.formatBits_loop fuel u b EmptyString ++ a)%string.
Proof.
  induction fuel as [|fuel IH]; intros u b a; cbn [strconv.formatBits_loop].
  - reflexivity.
  - destruct (b <=? u).
    + rewrite IH. rewrite (IH _ _ (String _ EmptyString)).
      rewrite <- append_assoc. reflexivity.
    + reflexivity.
Qed.

Lemma ParseUint_loop_digit base0 base cutoff maxVal d rest n us :
  2 <= base <= 36 -> 0 <= d < base ->
  0 <= n -> n * base + d <= maxVal -> maxVal <= strconv.maxUint64 ->
  cutoff = strconv.maxUint64 / base + 1 ->
  strconv.ParseUint_loop base0 base cutoff maxVal
    (String (strconv.digit_char d) rest) n us
  = strconv.ParseUint_loop base0 base cutoff maxVal rest (n * base + d) us.
Proof.
  intros Hb Hd Hn Hmax Hmv ->.
  cbn [strconv.ParseUint_loop].
  destruct (digit_char_decode d) as [H95 Hdv]; [lia|].
  rewrite H95, Hdv. cbn [andb].
  assert (Hc : (strconv.maxUint64 / base + 1 <=? n) = false).
  { apply Z.leb_gt.
    assert (n <= strconv.maxUint64 / base); [|lia].
    apply Z.div_le_lower_bound; nia. }
  rewrite Hc.
  replace (base <=? d) with false by (symmetry; apply Z.leb_gt; lia).
  unfold strconv.maxUint64 in *.
  rewrite Z.mod_small by nia.
  replace (n * base + d <? n * base) with false
    by (symmetry; apply Z.ltb_ge; lia).
  replace (maxVal <? n * base + d) with false
    by (symmetry; apply Z.ltb_ge; lia).
  reflexivity.
Qed.

Lemma ParseUint_loop_format base0 base cutoff maxVal fuel :
  2 <= base <= 36 -> maxVal <= strconv.maxUint64 ->
  cutoff = strconv.maxUint64 / base + 1 ->
  forall u rest us,
    0 <= u < 2 ^ Z.of_nat fuel -> u <= maxVal ->
    strconv.ParseUint_loop base0 base cutoff maxVal
      (strconv.formatBits_loop fuel u base EmptyString ++ rest)%string 0 us
    = strconv.ParseUint_loop base0 base cutoff maxVal rest u us.
Proof.
  intros Hb Hmv Hc.
  induction fuel as [|fuel IH]; intros u rest us Hu Hle.
  - cbn in Hu. assert (u = 0) by lia. subst u. reflexivity.
  - cbn [strconv.formatBits_loop].
    destruct (base <=? u) eqn:E.
    + apply Z.leb_le in E.
      rewrite formatBits_loop_app, <- append_assoc.
      assert (Hdiv : 0 <= u / base < 2 ^ Z.of_nat fuel).
      { split; [apply Z.div_pos; lia|].
        apply Z.div_lt_upper_bound; [lia|].
        rewrite Nat2Z.inj_succ, Z.pow_succ_r in Hu by lia. nia. }
      assert (Hm : 0 <= u mod base < base) by (apply Z.mod_pos_bound; lia).
      assert (Heq : u = u / base * base + u mod base).
      { rewrite (Z.mul_comm (u / base)). apply Z.div_mod. lia. }
      rewrite IH by (try lia; nia).
      cbn [String.append].
      rewrite (ParseUint_loop_digit base0 base cutoff maxVal (u mod base))
        by (try lia; try assumption).
      now rewrite <- Heq.
    + apply Z.leb_gt in E. cbn [String.append].
      rewrite (ParseUint_loop_digit base0 base cutoff maxVal u)
        by (try lia; try assumption).
      reflexivity.
Qed.

Lemma digit_char_byte (d : Z) :
  0 <= d < 10 -> byte (strconv.digit_char d) = 48 + d.
Proof.
  intros Hd.
  assert (H : forallb (fun n => byte (strconv.digit_char (Z.of_nat n))
                                =? 48 + Z.of_nat n) (seq 0 10) = true)
    by (vm_compute; reflexivity).
  rewrite forallb_forall in H.
  specialize (H (Z.to_nat d)). rewrite Z2Nat.id in H by lia.
  apply Z.eqb_eq, H, in_seq. lia.
Qed.

Lemma formatBits_loop_head (b : Z) (fuel : nat) :
  2 <= b ->
  forall u, 0 <= u < 2 ^ Z.of_nat fuel -> fuel <> O ->
    exists m rest,
      strconv.formatBits_loop fuel u b EmptyString = String (strconv.digit_char m) rest
      /\ 0 <= m < b /\ (1 <= u -> 1 <= m).
Proof.
  intros Hb. induction fuel as [|fuel IH]; intros u Hu Hf; [congruence|].
  cbn [strconv.formatBits_loop].
  destruct (b <=? u) eqn:E.
  - apply Z.leb_le in E.
    assert (Hdiv : 1 <= u / b < 2 ^ Z.of_nat fuel).
    { split; [apply Z.div_le_lower_bound; lia|].
      apply Z.div_lt_upper_bound; [lia|].
      rewrite Nat2Z.inj_succ, Z.pow_succ_r in Hu by lia. nia. }
    assert (Hf' : fuel <> O).
    { intros ->. cbn in Hdiv. lia. }
    destruct (IH (u / b)) as (m & rest & Heq & Hm & Hpos); [lia|exact Hf'|].
    rewrite formatBits_loop_app, Heq. cbn [String.append].
    exists m. eexists. split; [reflexivity|]. split; [lia|]. intros _. lia.
  - apply Z.leb_gt in E. exists u, EmptyString. split; [reflexivity|]. lia.
Qed.

Lemma formatBits_head (u b : Z) :
  2 <= b -> 0 <= u < 2 ^ 64 ->
  exists m rest,
    strconv.formatBits u b = String (strconv.digit_char m) rest
    /\ 0 <= m < b /\ (1 <= u -> 1 <= m).
Proof.
  intros Hb Hu. apply formatBits_loop_head; [exact Hb| |discriminate].
  exact Hu.
Qed.

Lemma pow2_bits_le (bits : Z) :
  0 < bits <= 64 -> 0 < 2 ^ bits <= 2 ^ 64.
Proof.
  intros H. split; [apply Z.pow_pos_nonneg; lia|].
  apply Z.pow_le_mono_r; lia.
Qed.

Lemma ParseUint_loop_formatBits base0 base bits u :
  2 <= base <= 36 -> 0 < bits <= 64 -> 0 <= u < 2 ^ bits ->
  strconv.ParseUint_loop base0 base (strconv.maxUint64 / base + 1)
    (2 ^ bits - 1) (strconv.formatBits u base) 0 false
  = inl (u, false).
Proof.
  intros Hb Hbits Hu. pose proof (pow2_bits_le bits Hbits) as Hp.
  unfold strconv.formatBits.
  rewrite <- (append_nil_r (strconv.formatBits_loop 64 u base EmptyString)).
  assert (Hmv : 2 ^ bits - 1 <= strconv.maxUint64)
    by (unfold strconv.maxUint64; lia).
  rewrite (ParseUint_loop_format base0 base _ (2 ^ bits - 1) 64 Hb Hmv eq_refl).
  - reflexivity.
  - change (Z.of_nat 64) with 64. lia.
  - lia.
Qed.

(** Parsing the hexadecimal rendering behind the prefix 0x. *)
Lemma ParseUint_hex (bits u : Z) :
  0 < bits <= 64 -> 0 <= u < 2 ^ bits ->
  strconv.ParseUint (String "0" (String "x" (strconv.formatBits u 16))) 0 bits
  = (u, None).
Proof.
  intros Hbits Hu. pose proof (pow2_bits_le bits Hbits) as Hp.
  destruct (formatBits_head u 16) as (m & rest & Heq & _); [lia|lia|].
  unfold strconv.ParseUint.
  change (0 =? 0) with true. cbn [andb Z.leb Z.compare].
  change ((2 <=? 0) && (0 <=? 36)) with false. cbv iota.
  unfold strconv.base_prefix. rewrite Heq.
  change (byte "0" =? 48) with true. cbv iota.
  replace (3 <=? Z.of_nat (String.length
            (String "0" (String "x" (String (strconv.digit_char m) rest)))))
    with true by (symmetry; apply Z.leb_le; cbn [String.length]; lia).
  change (strconv.lower (byte "x") =? 98) with false.
  change (strconv.lower (byte "x") =? 111) with false.
  change (strconv.lower (byte "x") =? 120) with true.
  cbn [andb]. cbv iota.
  bit_size_tests bits.
  rewrite <- Heq, ParseUint_loop_formatBits by lia.
  reflexivity.
Qed.

(** Parsing the decimal rendering. *)
Lemma ParseUint_dec (bits u : Z) :
  0 < bits <= 64 -> 0 <= u < 2 ^ bits ->
  strconv.ParseUint (strconv.formatBits u 10) 0 bits = (u, None).
Proof.
  intros Hbits Hu. pose proof (pow2_bits_le bits Hbits) as Hp.
  destruct (Z.eq_dec u 0) as [->|Hnz].
  - unfold strconv.ParseUint. cbn.
    bit_size_tests bits.
    reflexivity.
  - destruct (formatBits_head u 10) as (m & rest & Heq & Hm & Hpos);
      [lia|lia|].
    unfold strconv.ParseUint. rewrite Heq.
    change (0 =? 0) with true.
    change ((2 <=? 0) && (0 <=? 36)) with false. cbv iota.
    unfold strconv.base_prefix.
    rewrite digit_char_byte by lia.
    replace (48 + m =? 48) with false by (symmetry; apply Z.eqb_neq; lia).
    bit_size_tests bits.
    rewrite <- Heq, ParseUint_loop_formatBits by lia.
    reflexivity.
Qed.

Lemma ParseInt_dec (bits v : Z) :
  0 < bits <= 64 -> - 2 ^ (bits - 1) <= v < 2 ^ (bits - 1) ->
  strconv.ParseInt (fmt.Sprintf_d v) 0 bits = (v, None).
Proof.
  intros Hbits Hv.
  assert (Hpow : 2 ^ bits = 2 * 2 ^ (bits - 1)).
  { rewrite <- Z.pow_succ_r by lia. f_equal. lia. }
  assert (Hpos : 0 < 2 ^ (bits - 1)) by (apply Z.pow_pos_nonneg; lia).
  unfold fmt.Sprintf_d.
  destruct (v <? 0) eqn:E.
  - apply Z.ltb_lt in E. unfold strconv.ParseInt.
    change (byte "-" =? 43) with false. change (byte "-" =? 45) with true.
    cbv iota. rewrite ParseUint_dec by lia.
    replace (bits =? 0) with false by (symmetry; apply Z.eqb_neq; lia).
    cbn [negb andb].
    replace (2 ^ (bits - 1) <? - v) with false
      by (symmetry; apply Z.ltb_ge; lia).
    f_equal. lia.
  - apply Z.ltb_ge in E.
    destruct (formatBits_head v 10) as (m & rest & Heq & Hm & _).
    { lia. }
    { pose proof (pow2_bits_le bits Hbits). lia. }
    pose proof (ParseUint_dec bits v Hbits ltac:(lia)) as HP.
    unfold strconv.ParseInt. rewrite Heq in *.
    rewrite digit_char_byte by lia.
    replace (48 + m =? 43) with false by (symmetry; apply Z.eqb_neq; lia).
    replace (48 + m =? 45) with false by (symmetry; apply Z.eqb_neq; lia).
    rewrite HP.
    replace (bits =? 0) with false by (symmetry; apply Z.eqb_neq; lia).
    cbn [negb andb].
    replace (2 ^ (bits - 1) <=? v) with false
      by (symmetry; apply Z.leb_gt; lia).
    reflexivity.
Qed.

(** * Looking methods up by name *)

Lemma lower_byte_letter (c : ascii) :
  is_ascii_letter (strings.lower_byte c) = is_ascii_letter c.
Proof.
  destruct c as [[] [] [] [] [] [] [] []]; vm_compute; reflexivity.
Qed.

Lemma ToLower_starts_with_letter (s : string) :
  starts_with_letter (strings.ToLower s) = starts_with_letter s.
Proof. destruct s as [|c s]; cbn; [reflexivity|apply lower_byte_letter]. Qed.

Lemma IsExported_starts_with_letter (s : string) :
  IsExported s = true -> starts_with_letter s = true.
Proof.
  destruct s as [|c s]; cbn; [discriminate|].
  unfold is_ascii_letter. now intros ->.
Qed.

Lemma find_none_forallb {A : Type} (p : A -> bool) (l : list A) :
  forallb (fun x => negb (p x)) l = true -> find p l = None.
Proof.
  induction l as [|x l IH]; cbn; [reflexivity|].
  intros H. apply andb_prop in H. destruct H as [H1 H2].
  apply negb_true_iff in H1. rewrite H1. now apply IH.
Qed.

(** A text that does not start with a letter names no method. *)
Lemma findMethod_not_letter (T : RType) (s : string) (ci : bool) :
  exported_names T = true -> starts_with_letter s = false ->
  enum.findMethod T s ci = None.
Proof.
  unfold exported_names, enum.findMethod, MethodByName. intros Hex Hs.
  destruct ci; cbn [negb]; apply find_none_forallb;
    rewrite forallb_forall in *; intros m Hm; specialize (Hex m Hm);
    apply IsExported_starts_with_letter in Hex;
    apply negb_true_iff; apply String.eqb_neq; intros Heq.
  - rewrite <- (ToLower_starts_with_letter s) in Hs.
    rewrite <- (ToLower_starts_with_letter (Name m)) in Hex. congruence.
  - congruence.
Qed.

Lemma Parse_not_letter (T : RType) (s : string) (ci : bool) :
  exported_names T = true -> starts_with_letter s = false ->
  enum.Parse T s ci = Returns (None, Some (enum.CouldntParse s (TName T))).
Proof.
  intros Hex Hs. unfold enum.Parse.
  now rewrite findMethod_not_letter.
Qed.

(** * The scalar formatter *)

Lemma String_loop (ev : Value) (ms : list Method) :
  forall res : string,
    enum.GetSymbols_loop ms
      (fun symbol value symbolResult =>
         if Value_eqb value ev
         then Returns (true, symbol)
         else Returns (false, symbolResult)) res
    = Returns match find (fun nv => Value_eqb (snd nv) ev) (symbols_of ms) with
              | Some nv => fst nv
              | None => res
              end.
Proof.
  induction ms as [|m ms IH]; intros res; [reflexivity|].
  rewrite symbols_of_cons.
  destruct (symbolValue m) as [v|] eqn:Hs.
  - rewrite (loop_step _ _ m ms v res
               (if Value_eqb v ev then Name m else res)
               (Value_eqb v ev) Hs)
      by (now destruct (Value_eqb v ev)).
    cbn [find snd]. destruct (Value_eqb v ev); [reflexivity|apply IH].
  - rewrite loop_skip by exact Hs. apply IH.
Qed.

Lemma String_spec (ev : Value) (T : RType) :
  enum.String ev T
  = Returns match find (fun nv => Value_eqb (snd nv) ev) (symbols T) with
            | Some nv => fst nv
            | None => EmptyString
            end.
Proof. apply String_loop. Qed.

Lemma integer_bitSize (k : Kind) :
  is_signed k = true \/ is_unsigned k = true -> 0 < Size k * 8 <= 64.
Proof. destruct k; cbn; intros [H|H]; try discriminate; lia. Qed.

Lemma Sprintf_d_not_letter (v : Z) :
  - 2 ^ 64 < v < 2 ^ 64 -> starts_with_letter (fmt.Sprintf_d v) = false.
Proof.
  intros Hv. unfold fmt.Sprintf_d. destruct (v <? 0) eqn:E.
  - reflexivity.
  - apply Z.ltb_ge in E.
    destruct (formatBits_head v 10) as (m & rest & Heq & Hm & _); [lia|lia|].
    rewrite Heq. cbn. unfold is_ascii_letter, strings.is_upper.
    rewrite digit_char_byte by lia.
    repeat match goal with
           | |- context [?a <=? ?b] =>
               first [ replace (a <=? b) with false
                         by (symmetry; apply Z.leb_gt; lia)
                     | replace (a <=? b) with true
                         by (symmetry; apply Z.leb_le; lia) ]
           end.
    reflexivity.
Qed.

Lemma in_range_cases (k : Kind) (v : Z) :
  in_range k v = true ->
  (is_unsigned k = true /\ is_signed k = false
   /\ 0 <= v < 2 ^ (Size k * 8))
  \/ (is_signed k = true /\ is_unsigned k = false
      /\ - 2 ^ (Size k * 8 - 1) <= v < 2 ^ (Size k * 8 - 1)).
Proof.
  unfold in_range. destruct (is_unsigned k) eqn:Hu.
  - intros H. apply andb_prop in H. destruct H as [H1 H2].
    apply Z.leb_le in H1. apply Z.ltb_lt in H2. left.
    destruct k; try discriminate; auto.
  - destruct (is_signed k) eqn:Hs; [|discriminate].
    intros H. apply andb_prop in H. destruct H as [H1 H2].
    apply Z.leb_le in H1. apply Z.ltb_lt in H2. right. auto.
Qed.



(** * Ranges of parsed numbers *)

Lemma ParseUint_loop_range base0 base cutoff maxVal (s : string) :
  forall n us n' us',
    0 <= n <= maxVal ->
    strconv.ParseUint_loop base0 base cutoff maxVal s n us = inl (n', us') ->
    0 <= n' <= maxVal.
Proof.
  induction s as [|c s IH]; intros n us n' us' Hn; cbn [strconv.ParseUint_loop].
  - intros H. inversion H. now subst.
  - destruct ((byte c =? 95) && base0); [now apply IH|].
    destruct (strconv.digit_value (byte c)) as [d|]; [|discriminate].
    destruct (base <=? d); [discriminate|].
    destruct (cutoff <=? n); [discriminate|].
    destruct ((n * base + d) mod 2 ^ 64 <? n * base) eqn:E1; [discriminate|].
    destruct (maxVal <? (n * base + d) mod 2 ^ 64) eqn:E2; [discriminate|].
    cbn [orb]. apply IH.
    apply Z.ltb_ge in E2. split; [|exact E2].
    apply Z.mod_pos_bound. lia.
Qed.

Lemma ParseUint_ok_range (s : string) (base bits n : Z) :
  strconv.ParseUint s base bits = (n, None) ->
  0 <= bits <= 64 /\ 0 <= n <= 2 ^ (if bits =? 0 then 64 else bits) - 1.
Proof.
  unfold strconv.ParseUint. destruct s as [|c s]; [discriminate|].
  destruct (if (2 <=? base) && (base <=? 36)
            then Some (base, String c s)
            else if base =? 0 then Some (strconv.base_prefix (String c s))
                 else None) as [[b rest]|]; [|discriminate].
  destruct ((bits <? 0) || (64 <? bits)) eqn:E; [discriminate|].
  apply orb_false_iff in E. destruct E as [E1 E2].
  apply Z.ltb_ge in E1, E2.
  destruct (strconv.ParseUint_loop _ _ _ _ _ _ _) as [[n' us]|[v e]] eqn:EL;
    [|discriminate].
  assert (Hpos : 0 < 2 ^ (if bits =? 0 then 64 else bits)).
  { apply Z.pow_pos_nonneg; [lia|]. destruct (bits =? 0); lia. }
  apply ParseUint_loop_range in EL; [|lia].
  destruct (us && negb (strconv.underscoreOK (String c s))); [discriminate|].
  intros H. inversion H. subst. lia.
Qed.

Lemma ParseUint_loop_error base0 base cutoff maxVal (s : string) :
  forall n us v,
    strconv.ParseUint_loop base0 base cutoff maxVal s n us
    = inr (v, strconv.ErrRange) ->
    v = maxVal.
Proof.
  induction s as [|c s IH]; intros n us v; cbn [strconv.ParseUint_loop].
  - discriminate.
  - destruct ((byte c =? 95) && base0); [now apply IH|].
    destruct (strconv.digit_value (byte c)) as [d|]; [|discriminate].
    destruct (base <=? d); [discriminate|].
    destruct (cutoff <=? n); [intros H; now inversion H|].
    destruct (((n * base + d) mod 2 ^ 64 <? n * base)
              || (maxVal <? (n * base + d) mod 2 ^ 64));
      [intros H; now inversion H|].
    apply IH.
Qed.

Lemma ParseUint_range_error (s : string) (base bits un : Z) :
  strconv.ParseUint s base bits = (un, Some strconv.ErrRange) ->
  0 <= bits <= 64 /\ un = 2 ^ (if bits =? 0 then 64 else bits) - 1.
Proof.
  unfold strconv.ParseUint. destruct s as [|c s]; [discriminate|].
  destruct (if (2 <=? base) && (base <=? 36)
            then Some (base, String c s)
            else if base =? 0 then Some (strconv.base_prefix (String c s))
                 else None) as [[b rest]|]; [|discriminate].
  destruct ((bits <? 0) || (64 <? bits)) eqn:E; [discriminate|].
  apply orb_false_iff in E. destruct E as [E1 E2].
  apply Z.ltb_ge in E1, E2.
  destruct (strconv.ParseUint_loop _ _ _ _ _ _ _) as [[n' us]|[v e]] eqn:EL.
  - destruct (us && negb (strconv.underscoreOK (String c s))); discriminate.
  - intros H. inversion H. subst.
    apply ParseUint_loop_error in EL. split; [lia|exact EL].
Qed.

Lemma ParseInt_ok_range (s : string) (base bits n : Z) :
  0 < bits ->
  strconv.ParseInt s base bits = (n, None) ->
  bits <= 64 /\ - 2 ^ (bits - 1) <= n < 2 ^ (bits - 1).
Proof.
  intros Hbits. unfold strconv.ParseInt. destruct s as [|c s]; [discriminate|].
  destruct (if byte c =? 43 then (false, s)
            else if byte c =? 45 then (true, s) else (false, String c s))
    as [neg s1].
  destruct (strconv.ParseUint s1 base bits) as [un [e|]] eqn:EP.
  - destruct e; try discriminate.
    apply ParseUint_range_error in EP.
    replace (bits =? 0) with false in * by (symmetry; apply Z.eqb_neq; lia).
    destruct EP as [Hb ->].
    assert (Hpow : 2 ^ bits = 2 * 2 ^ (bits - 1)).
    { rewrite <- Z.pow_succ_r by lia. f_equal. lia. }
    assert (Hpos : 0 < 2 ^ (bits - 1)) by (apply Z.pow_pos_nonneg; lia).
    destruct (negb neg && (2 ^ (bits - 1) <=? 2 ^ bits - 1)) eqn:E1;
      [discriminate|].
    destruct (neg && (2 ^ (bits - 1) <? 2 ^ bits - 1)) eqn:E2; [discriminate|].
    intros H. inversion H. subst n. split; [lia|].
    destruct neg; cbn [negb andb] in *.
    + apply Z.ltb_ge in E2. lia.
    + apply Z.leb_gt in E1. lia.
  - apply ParseUint_ok_range in EP.
    replace (bits =? 0) with false in * by (symmetry; apply Z.eqb_neq; lia).
    destruct (negb neg && (2 ^ (bits - 1) <=? un)) eqn:E1; [discriminate|].
    destruct (neg && (2 ^ (bits - 1) <? un)) eqn:E2; [discriminate|].
    intros H. inversion H. subst n. split; [lia|].
    assert (Hpos : 0 < 2 ^ (bits - 1)) by (apply Z.pow_pos_nonneg; lia).
    destruct neg; cbn [negb andb] in *.
    + apply Z.ltb_ge in E2. lia.
    + apply Z.leb_gt in E1. lia.
Qed.

(** A string has 128 bits, which [ParseUint] refuses. *)
Lemma ParseUint_bitSize_128 (s : string) :
  snd (strconv.ParseUint s 0 128) <> None.
Proof.
  unfold strconv.ParseUint. destruct s as [|c s]; [discriminate|].
  cbn [Z.leb Z.compare andb Z.eqb].
  destruct (strconv.base_prefix (String c s)) as [b rest].
  cbn. discriminate.
Qed.

(** The fallback never panics: [SetInt]/[SetUint] are reached only with a
    literal of the type's own kind and range. *)
Lemma ParseInt_fallback (T : RType) (s : string) (e : option enum.error) :
  (if is_signed (TKind T)
   then
     let '(intVal, parseErr) := strconv.ParseInt s 0 (Size (TKind T) * 8) in
     if enum.is_nil parseErr
     then value <- Value_SetInt (TKind T) intVal ;; Returns (Some value, None)
     else Returns (None, e)
   else
     let '(intVal, parseErr) := strconv.ParseUint s 0 (Size (TKind T) * 8) in
     if enum.is_nil parseErr
     then value <- Value_SetUint (TKind T) intVal ;; Returns (Some value, None)
     else Returns (None, e))
  = match numericLiteral T s with
    | Some n => Returns (Some (IntV n), None)
    | None => Returns (None, e)
    end.
Proof.
  unfold numericLiteral, bitSize.
  destruct (is_signed (TKind T)) eqn:Hs.
  - pose proof (integer_bitSize (TKind T) (or_introl Hs)) as Hb.
    destruct (strconv.ParseInt s 0 (Size (TKind T) * 8)) as [n [err|]] eqn:EP;
      cbn [fst snd enum.is_nil]; [reflexivity|].
    apply ParseInt_ok_range in EP; [|lia]. destruct EP as [_ Hn].
    unfold Value_SetInt. rewrite Hs. cbn [bind].
    assert (Hpow : 2 ^ (Size (TKind T) * 8) = 2 * 2 ^ (Size (TKind T) * 8 - 1)).
    { rewrite <- Z.pow_succ_r by lia. f_equal. lia. }
    rewrite Hpow.
    replace (2 * 2 ^ (Size (TKind T) * 8 - 1) / 2)
      with (2 ^ (Size (TKind T) * 8 - 1))
      by (symmetry; rewrite (Z.mul_comm 2); apply Z.div_mul; lia).
    rewrite Z.mod_small by lia.
    now rewrite Z.add_simpl_r.
  - destruct (strconv.ParseUint s 0 (Size (TKind T) * 8)) as [n [err|]] eqn:EP;
      cbn [fst snd enum.is_nil]; [reflexivity|].
    destruct (is_unsigned (TKind T)) eqn:Hu.
    + pose proof (integer_bitSize (TKind T) (or_intror Hu)) as Hb.
      apply ParseUint_ok_range in EP.
      replace (Size (TKind T) * 8 =? 0) with false in EP
        by (symmetry; apply Z.eqb_neq; lia).
      unfold Value_SetUint. rewrite Hu. cbn [bind].
      rewrite Z.mod_small by lia. reflexivity.
    + exfalso. destruct (TKind T); try discriminate.
      apply (ParseUint_bitSize_128 s). cbn [Size] in EP.
      change (16 * 8) with 128 in EP. now rewrite EP.
Qed.

Lemma ParseInt_not_found (T : RType) (s : string) (ci strict : bool) :
  enum.findMethod T s ci = None ->
  enum.ParseInt T s ci strict
  = match (if strict then None else numericLiteral T s) with
    | Some n => Returns (Some (IntV n), None)
    | None => Returns (None, Some (enum.CouldntParse s (TName T)))
    end.
Proof.
  intros Hf. unfold enum.ParseInt, enum.Parse. rewrite Hf.
  cbn [bind enum.is_nil orb].
  destruct strict; [reflexivity|].
  apply ParseInt_fallback.
Qed.

Lemma ParseInt_found (T : RType) (s : string) (ci strict : bool) (m : Method) :
  enum.findMethod T s ci = Some m ->
  enum.ParseInt T s ci strict
  = (v <- enum.callMethod m ;; Returns (Some v, None)).
Proof.
  intros Hf. unfold enum.ParseInt, enum.Parse. rewrite Hf.
  destruct (enum.callMethod m); reflexivity.
Qed.

(** C10. [ParseInt] returns a nil value exactly when it returns an error.
    Where the lookup lowers ASCII only (the exact lookup, or ASCII names
    and text): a method found by name whose call returns gives that value
    and no error; when no method is found, lenient mode with a numeric
    literal of the type's kind gives the literal and no error; in every
    other case without a method the value is nil and the error names the
    input text and the type. *)
Theorem ParseInt_nil_value_iff_error
        (T : RType) (s : string) (caseInsensitive strict : bool) :
  (forall r, enum.ParseInt T s caseInsensitive strict = Returns r ->
             (fst r = None <-> snd r <> None))
  /\ (forall m v,
        lowering_is_ascii caseInsensitive T s = true ->
        enum.findMethod T s caseInsensitive = Some m ->
        enum.callMethod m = Returns v ->
        enum.ParseInt T s caseInsensitive strict = Returns (Some v, None))
  /\ (lowering_is_ascii caseInsensitive T s = true ->
      enum.findMethod T s caseInsensitive = None ->
      match (if strict then None else numericLiteral T s) with
      | Some n =>
          enum.ParseInt T s caseInsensitive strict
          = Returns (Some (IntV n), None)
      | None =>
          enum.ParseInt T s caseInsensitive strict
          = Returns (None, Some (enum.CouldntParse s (TName T)))
      end).
Proof.
  split; [|split].
  - intros r. destruct (enum.findMethod T s caseInsensitive) as [m|] eqn:Hf.
    + rewrite (ParseInt_found _ _ _ _ _ Hf).
      destruct (enum.callMethod m); [|discriminate].
      intros H. inversion H. cbn. split; intros; congruence.
    + rewrite (ParseInt_not_found _ _ _ _ Hf).
      destruct (if strict then None else numericLiteral T s);
        intros H; inversion H; cbn; split; intros; congruence.
  - intros m v _ Hf Hc. rewrite (ParseInt_found _ _ _ _ _ Hf), Hc. reflexivity.
  - intros _ Hf. rewrite (ParseInt_not_found _ _ _ _ Hf).
    destruct (if strict then None else numericLiteral T s); reflexivity.
Qed.

Lemma ParseInt_nil_value_iff_error_witness :
  lowering_is_ascii true examples.Color "blue" = true
  /\ lowering_is_ascii true examples.Color "0x15" = true
  /\ lowering_is_ascii true examples.Color "Bluex" = true
  /\ enum.ParseInt examples.Color "blue" true false = Returns (Some (IntV 3), None)
  /\ enum.ParseInt examples.Color "0x15" true false
     = Returns (Some (IntV 21), None)
  /\ enum.ParseInt examples.Color "Bluex" true false
     = Returns (None, Some (enum.CouldntParse "Bluex" "Color"))
  /\ (fst (None : option Value, Some (enum.CouldntParse "Bluex" "Color")) = None
      <-> snd (None : option Value, Some (enum.CouldntParse "Bluex" "Color"))
          <> None).
Proof.
  pose proof (ParseInt_nil_value_iff_error examples.Color "blue" true false)
    as (_ & Hfound & _).
  pose proof (ParseInt_nil_value_iff_error examples.Color "0x15" true false)
    as (_ & _ & Hlit).
  pose proof (ParseInt_nil_value_iff_error examples.Color "Bluex" true false)
    as (Hiff & _ & Hbad).
  do 3 (split; [reflexivity|]).
  split; [|split; [|split]].
  - apply (Hfound (examples.symbol "Blue" (IntV 3))); reflexivity.
  - apply Hlit; reflexivity.
  - apply Hbad; reflexivity.
  - apply (Hiff (None, Some (enum.CouldntParse "Bluex" "Color"))).
    reflexivity.
Defined.

(** * Flag parsing of the empty text *)

(** C9. [ParseUintFlags] of the empty string returns the value 0 together
    with an error, for every type and case setting, whether or not the type
    has a zero-valued symbol; in particular the empty text that
    [StringUintFlags] produces for 0 on a flag type without a zero-valued
    symbol does not parse back. *)
Theorem ParseUintFlags_empty_string_is_error
        (T : RType) (caseInsensitive : bool) :
  exported_names T = true ->
  enum.ParseUintFlags T EmptyString caseInsensitive
  = Returns (0, Some (enum.CouldntParse EmptyString (TName T)))
  /\ (is_unsigned (TKind T) = true ->
      well_typed T = true ->
      find is_zero_flag (symbols T) = None ->
      forall intBase,
        enum.StringUintFlags 0 T intBase = Returns EmptyString
        /\ (s <- enum.StringUintFlags 0 T intBase ;;
            enum.ParseUintFlags T s caseInsensitive)
           = Returns (0, Some (enum.CouldntParse EmptyString (TName T)))).
Proof.
  intros Hex.
  assert (Hparse : enum.ParseUintFlags T EmptyString caseInsensitive
                   = Returns (0, Some (enum.CouldntParse EmptyString (TName T)))).
  { unfold enum.ParseUintFlags.
    cbn [strings.Split enum.ParseUintFlags_loop].
    change (strings.TrimSpace EmptyString) with EmptyString.
    rewrite Parse_not_letter by (exact Hex || reflexivity).
    reflexivity. }
  split; [exact Hparse|].
  intros Hk Hty Hnone intBase.
  assert (Hfmt : enum.StringUintFlags 0 T intBase = Returns EmptyString).
  { pose proof (flags_loop_zero T (Methods T) Hk Hty 0 EmptyString []) as H.
    fold (symbols T) in H. rewrite Hnone in H.
    unfold enum.StringUintFlags, enum.GetSymbols.
    rewrite (logged_erase _ _ _ _ []), H. reflexivity. }
  split; [exact Hfmt|]. rewrite Hfmt. exact Hparse.
Qed.

Lemma ParseUintFlags_empty_string_is_error_witness :
  exported_names examples.Perm = true
  /\ is_unsigned (TKind examples.Perm) = true
  /\ well_typed examples.Perm = true
  /\ find is_zero_flag (symbols examples.Perm) = None
  /\ enum.ParseUintFlags examples.Perm EmptyString true
     = Returns (0, Some (enum.CouldntParse EmptyString "Perm"))
  /\ enum.StringUintFlags 0 examples.Perm 16 = Returns EmptyString.
Proof.
  pose proof (ParseUintFlags_empty_string_is_error examples.Perm true eq_refl)
    as [Hp Hf].
  do 4 (split; [reflexivity|]).
  split; [exact Hp|].
  exact (proj1 (Hf eq_refl eq_refl eq_refl 16)).
Defined.

(** * Case-insensitive lookup *)

Lemma find_refine {A : Type} (p q : A -> bool) (l : list A) (x : A) :
  find p l = Some x -> q x = true ->
  (forall y, q y = true -> p y = true) ->
  find q l = Some x.
Proof.
  intros Hf Hq Himp. induction l as [|y l IH]; cbn in *; [discriminate|].
  destruct (p y) eqn:Hp.
  - inversion Hf. subst y. now rewrite Hq.
  - destruct (q y) eqn:Hqy; [|now apply IH].
    apply Himp in Hqy. congruence.
Qed.

Lemma Parse_first_lowercase_match (T : RType) (s : string) (m : Method)
      (v : Value) :
  first_lowercase_match T s = Some m -> symbolValue m = Some v ->
  enum.Parse T s true = Returns (Some v, None).
Proof.
  intros Hf Hs. unfold enum.Parse, enum.findMethod. cbn [negb].
  unfold first_lowercase_match in Hf. rewrite Hf.
  now rewrite (callMethod_symbol m v Hs).
Qed.

Lemma ParseInt_of_Parse_ok (T : RType) (s : string) (ci strict : bool)
      (v : Value) :
  enum.Parse T s ci = Returns (Some v, None) ->
  enum.ParseInt T s ci strict = Returns (Some v, None).
Proof. intros H. unfold enum.ParseInt. rewrite H. reflexivity. Qed.

(** C7, as the code has it, on a type whose method names are ASCII
    identifiers.  With [caseInsensitive] set, lookup of an ASCII text
    compares lower-cased names and takes the first method in enumeration
    order whose lower-cased name is the lower-cased text; when that method
    is a symbol, its value is the result.  Given a symbol named Red that
    is the first method whose lower-cased name is red, [ParseInt] of red
    and of RED with [caseInsensitive] set return what [ParseInt] of Red
    returns without it: the value of Red. *)
Theorem ParseInt_case_insensitive_first_match (T : RType) (strict : bool) :
  identifier_names T = true ->
  (forall s m v,
      is_ascii s = true ->
      first_lowercase_match T s = Some m ->
      symbolValue m = Some v ->
      enum.ParseInt T s true strict = Returns (Some v, None))
  /\ (forall m v,
        first_lowercase_match T "red" = Some m ->
        Name m = "Red"%string ->
        symbolValue m = Some v ->
        enum.ParseInt T "red" true strict = Returns (Some v, None)
        /\ enum.ParseInt T "RED" true strict = Returns (Some v, None)
        /\ enum.ParseInt T "Red" false strict = Returns (Some v, None)).
Proof.
  intros _. split.
  - intros s m v _ Hf Hs.
    apply ParseInt_of_Parse_ok. eapply Parse_first_lowercase_match; eauto.
  - intros m v Hf Hn Hs. split; [|split]; apply ParseInt_of_Parse_ok.
    + eapply Parse_first_lowercase_match; eauto.
    + eapply Parse_first_lowercase_match; eauto.
    + unfold enum.Parse, enum.findMethod, MethodByName. cbn [negb].
      rewrite (find_refine _ (fun m0 => String.eqb (Name m0) "Red") _ m Hf).
      * now rewrite (callMethod_symbol m v Hs).
      * rewrite Hn. reflexivity.
      * intros y Hy. apply String.eqb_eq in Hy. rewrite Hy. reflexivity.
Qed.

Lemma ParseInt_case_insensitive_first_match_witness :
  identifier_names examples.Color = true
  /\ is_ascii "GREEN" = true
  /\ enum.ParseInt examples.Color "GREEN" true true = Returns (Some (IntV 2), None)
  /\ enum.ParseInt examples.Color "red" true true = Returns (Some (IntV 1), None)
  /\ enum.ParseInt examples.Color "RED" true true = Returns (Some (IntV 1), None)
  /\ enum.ParseInt examples.Color "Red" false true
     = Returns (Some (IntV 1), None).
Proof.
  pose proof (ParseInt_case_insensitive_first_match examples.Color true
                eq_refl)
    as [Hany Hred].
  do 2 (split; [reflexivity|]).
  split.
  - apply (Hany "GREEN"%string (examples.symbol "Green" (IntV 2)));
      reflexivity.
  - apply (Hred (examples.symbol "Red" (IntV 1))); reflexivity.
Defined.

(** Two symbols whose names differ by case only: the lookup of red with
    [caseInsensitive] set takes RED, the first of them, and so differs from
    the exact lookup of Red. *)
Lemma ParseInt_case_collision_counterexample :
  In ("Red"%string, IntV 1) (symbols examples.Shade)
  /\ enum.ParseInt examples.Shade "red" true false
     = Returns (Some (IntV 2), None)
  /\ enum.ParseInt examples.Shade "Red" false false
     = Returns (Some (IntV 1), None)
  /\ enum.ParseInt examples.Shade "red" true false
     <> enum.ParseInt examples.Shade "Red" false false.
Proof.
  split; [cbn; auto|]. split; [reflexivity|]. split; [reflexivity|].
  discriminate.
Qed.

(** * Splitting and trimming what the flag formatter writes *)

Lemma ident_char_plain (c : ascii) :
  is_ident_char c = true ->
  strings.is_space c = false /\ Ascii.eqb c "," = false.
Proof.
  destruct c as [[] [] [] [] [] [] [] []]; vm_compute; intros H;
    (discriminate H || (split; reflexivity)).
Qed.

Lemma trim_left_word (s : string) :
  all_chars is_ident_char s = true -> strings.trim_left s = s.
Proof.
  destruct s as [|c s]; cbn; [reflexivity|].
  intros H. apply andb_prop in H. destruct H as [Hc _].
  now rewrite (proj1 (ident_char_plain c Hc)).
Qed.

Lemma trim_right_word (s : string) :
  all_chars is_ident_char s = true -> strings.trim_right s = s.
Proof.
  induction s as [|c s IH]; cbn; [reflexivity|].
  intros H. apply andb_prop in H. destruct H as [Hc Hs].
  rewrite (IH Hs), (proj1 (ident_char_plain c Hc)).
  now destruct s.
Qed.

Lemma TrimSpace_word (s : string) :
  all_chars is_ident_char s = true -> strings.TrimSpace s = s.
Proof.
  intros H. unfold strings.TrimSpace.
  rewrite trim_left_word by exact H. now apply trim_right_word.
Qed.

Lemma TrimSpace_space_word (s : string) :
  all_chars is_ident_char s = true ->
  strings.TrimSpace (String " " s) = s.
Proof.
  intros H. unfold strings.TrimSpace.
  change (strings.trim_left (String " " s)) with (strings.trim_left s).
  rewrite trim_left_word by exact H. now apply trim_right_word.
Qed.

Lemma Split_word (s : string) :
  all_chars is_ident_char s = true -> strings.Split s "," = [s].
Proof.
  induction s as [|c s IH]; cbn; [reflexivity|].
  intros H. apply andb_prop in H. destruct H as [Hc Hs].
  now rewrite (proj2 (ident_char_plain c Hc)), (IH Hs).
Qed.

Lemma Split_app_comma (a b : string) :
  all_chars is_ident_char a = true ->
  strings.Split (a ++ String "," b) "," = a :: strings.Split b ",".
Proof.
  induction a as [|c a IH]; cbn; [reflexivity|].
  intros H. apply andb_prop in H. destruct H as [Hc Ha].
  now rewrite (proj2 (ident_char_plain c Hc)), (IH Ha).
Qed.

Lemma Split_concat (p : string) (rest : list string) :
  forallb (all_chars is_ident_char) (p :: rest) = true ->
  strings.Split (String.concat ", " (p :: rest)) ","
  = p :: map (String " "%char) rest.
Proof.
  revert p. induction rest as [|q rest IH]; intros p H.
  - cbn in *. apply Split_word. now rewrite andb_true_r in H.
  - cbn [forallb] in H. apply andb_prop in H. destruct H as [Hp Hq].
    change (String.concat ", " (p :: q :: rest))
      with (p ++ String "," (String " " (String.concat ", " (q :: rest))))%string.
    rewrite Split_app_comma by exact Hp.
    cbn [strings.Split]. change (Ascii.eqb " " ",") with false. cbv iota.
    rewrite (IH q Hq). reflexivity.
Qed.

(** The builder after the names: they are joined by comma and space. *)
Lemma write_names_concat (b : string) (names : list string) :
  b <> EmptyString ->
  write_names b names = String.concat ", " (b :: names).
Proof.
  revert b. induction names as [|n names IH]; intros b Hb; [reflexivity|].
  cbn [write_names fold_left].
  replace (0 <? strings.Len b) with true.
  2:{ symmetry. apply Z.ltb_lt. unfold strings.Len.
      destruct b; [congruence|cbn [String.length]; lia]. }
  fold (write_names (strings.WriteString (strings.WriteString b ", ") n) names).
  rewrite IH.
  - unfold strings.WriteString.
    destruct names as [|n2 names]; cbn [String.concat].
    + now rewrite <- append_assoc.
    + now rewrite <- !append_assoc.
  - unfold strings.WriteString. destruct b; [congruence|discriminate].
Qed.

Lemma write_names_empty (names : list string) :
  forallb (fun n => negb (String.eqb n EmptyString)) names = true ->
  write_names EmptyString names = String.concat ", " names.
Proof.
  destruct names as [|n names]; [reflexivity|].
  cbn [forallb]. intros H. apply andb_prop in H. destruct H as [Hn _].
  apply negb_true_iff, String.eqb_neq in Hn.
  cbn [write_names fold_left]. change (0 <? strings.Len EmptyString) with false.
  cbv iota. change (strings.WriteString EmptyString n) with n.
  now apply write_names_concat.
Qed.

Lemma concat_snoc (sep x : string) (l : list string) :
  l <> [] ->
  String.concat sep (l ++ [x]) = (String.concat sep l ++ sep ++ x)%string.
Proof.
  induction l as [|a l IH]; intros Hl; [congruence|].
  destruct l as [|b l].
  - reflexivity.
  - change (String.concat sep ((a :: b :: l) ++ [x]))
      with (a ++ sep ++ String.concat sep ((b :: l) ++ [x]))%string.
    rewrite IH by discriminate.
    change (String.concat sep (a :: b :: l))
      with (a ++ sep ++ String.concat sep (b :: l))%string.
    now rewrite <- !append_assoc.
Qed.

Lemma concat_nonempty (sep a : string) (l : list string) :
  a <> EmptyString -> String.concat sep (a :: l) <> EmptyString.
Proof.
  intros Ha. destruct l; cbn; [exact Ha|].
  destruct a; [congruence|discriminate].
Qed.

(** * The flag formatter on a non-zero value *)

Lemma flags_loop_nonzero (T : RType) (iv : Z) (ms : list Method) :
  is_unsigned (TKind T) = true -> iv <> 0 ->
  forallb (fun nv => has_kind (TKind T) (snd nv)) (symbols_of ms) = true ->
  forall (bits : Z) (b : string),
    enum.GetSymbols_loop ms (enum.flagsCallback iv T) (bits, b)
    = Returns (union_bits (matched iv (symbols_of ms)) bits,
               write_names b (map fst (matched iv (symbols_of ms)))).
Proof.
  intros Hk Hiv. induction ms as [|m ms IH]; intros Hty bits b.
  - reflexivity.
  - rewrite symbols_of_cons in *.
    destruct (symbolValue m) as [v|] eqn:Hs.
    + cbn [forallb snd] in Hty.
      apply andb_prop in Hty. destruct Hty as [Hv Hty].
      rewrite (loop_step _ _ m ms v _ _ _ Hs
                 (flagsCallback_nonzero T iv (Name m) v bits b Hk Hv Hiv)).
      unfold matched at 1 2. cbn [filter snd]. fold (matched iv (symbols_of ms)).
      destruct (negb (uint_of v =? 0)
                && (Z.land iv (uint_of v) =? uint_of v));
        rewrite (IH Hty); reflexivity.
    + rewrite loop_skip by exact Hs. now apply IH.
Qed.

(** What [StringUintFlags] returns for a non-zero value. *)
Lemma StringUintFlags_nonzero (T : RType) (iv intBase : Z) :
  is_unsigned (TKind T) = true -> iv <> 0 -> well_typed T = true ->
  enum.StringUintFlags iv T intBase
  = let ms := matched iv (symbols T) in
    let names := write_names EmptyString (map fst ms) in
    if negb (union_bits ms 0 =? iv)
    then
      digits <- strconv.FormatUint (Z.lxor iv (union_bits ms 0)) intBase ;;
      Returns (strings.WriteString
                 (strings.WriteString
                    (if 0 <? strings.Len names
                     then strings.WriteString names ", " else names) "0x")
                 digits)
    else Returns names.
Proof.
  intros Hk Hiv Hty. unfold enum.StringUintFlags, enum.GetSymbols.
  rewrite (flags_loop_nonzero T iv (Methods T) Hk Hiv Hty). reflexivity.
Qed.

Lemma symbols_of_In (ms : list Method) (n : string) (v : Value) :
  In (n, v) (symbols_of ms) ->
  exists m, In m ms /\ Name m = n /\ symbolValue m = Some v.
Proof.
  induction ms as [|m ms IH]; [intros []|].
  rewrite symbols_of_cons. destruct (symbolValue m) as [w|] eqn:Hs.
  - intros [H|H].
    + inversion H. subst. exists m. cbn. auto.
    + destruct (IH H) as (m' & Hin & Hn & Hv). exists m'. cbn. auto.
  - intros H. destruct (IH H) as (m' & Hin & Hn & Hv). exists m'. cbn. auto.
Qed.

Lemma symbols_of_names (ms : list Method) (p : string -> bool) :
  forallb (fun m => p (Name m)) ms = true ->
  forallb (fun nv => p (fst nv)) (symbols_of ms) = true.
Proof.
  intros H. apply forallb_forall. intros [n v] Hin.
  destruct (symbols_of_In ms n v Hin) as (m & Hm & Hn & _).
  rewrite forallb_forall in H. specialize (H m Hm). cbn. now rewrite <- Hn.
Qed.

Lemma matched_incl (iv : Z) (syms : list (string * Value)) (nv : string * Value) :
  In nv (matched iv syms) -> In nv syms.
Proof. unfold matched. intros H. now apply filter_In in H. Qed.

(** * Bits *)

Lemma lor_lxor_subset (iv bits : Z) :
  Z.land iv bits = bits -> Z.lor bits (Z.lxor iv bits) = iv.
Proof.
  intros H. apply Z.bits_inj'. intros n Hn.
  rewrite Z.lor_spec, Z.lxor_spec.
  assert (Hb : Z.testbit (Z.land iv bits) n = Z.testbit bits n) by now rewrite H.
  rewrite Z.land_spec in Hb.
  destruct (Z.testbit iv n), (Z.testbit bits n); cbn in *; congruence.
Qed.

Lemma union_bits_subset (iv : Z) (syms : list (string * Value)) :
  forall acc,
    Z.land iv acc = acc ->
    Z.land iv (union_bits (matched iv syms) acc) = union_bits (matched iv syms) acc.
Proof.
  induction syms as [|[n v] syms IH]; intros acc Hacc; [exact Hacc|].
  unfold matched. cbn [filter snd]. fold (matched iv syms).
  destruct (negb (uint_of v =? 0)) ; cbn [andb]; [|now apply IH].
  destruct (Z.land iv (uint_of v) =? uint_of v) eqn:E; [|now apply IH].
  apply Z.eqb_eq in E. cbn [union_bits fold_left snd].
  fold (union_bits (matched iv syms) (Z.lor acc (uint_of v))).
  apply IH. rewrite Z.land_lor_distr_r. congruence.
Qed.

Lemma union_bits_nonneg (syms : list (string * Value)) :
  forall acc,
    0 <= acc ->
    forallb (fun nv => 0 <=? uint_of (snd nv)) syms = true ->
    0 <= union_bits syms acc.
Proof.
  induction syms as [|[n v] syms IH]; intros acc Hacc H; [exact Hacc|].
  cbn [forallb snd] in H. apply andb_prop in H. destruct H as [Hv H].
  apply Z.leb_le in Hv. cbn [union_bits fold_left snd].
  apply IH; [|exact H]. apply Z.lor_nonneg. auto.
Qed.

Lemma remainder_range (iv bits N : Z) :
  0 <= iv < 2 ^ N -> 0 <= bits -> Z.land iv bits = bits ->
  0 <= Z.lxor iv bits < 2 ^ N.
Proof.
  intros Hiv Hb Hsub.
  assert (Hnn : 0 <= Z.lxor iv bits) by (apply Z.lxor_nonneg; lia).
  split; [exact Hnn|].
  destruct (Z.eq_dec (Z.lxor iv bits) 0) as [->|Hnz]; [lia|].
  destruct (Z.eq_dec iv 0) as [->|Hiv0].
  { rewrite Z.land_0_l in Hsub. subst bits. now rewrite Z.lxor_0_l in Hnz. }
  assert (HN : 0 <= N).
  { destruct (Z.le_gt_cases 0 N) as [|Hneg]; [assumption|].
    rewrite Z.pow_neg_r in Hiv by lia. lia. }
  apply Z.log2_lt_pow2; [lia|].
  assert (Hl1 : Z.log2 iv < N) by (apply Z.log2_lt_pow2; lia).
  assert (Hl2 : Z.log2 bits <= Z.log2 iv).
  { rewrite <- Hsub at 1.
    etransitivity; [apply Z.log2_land; lia|]. apply Z.le_min_l. }
  pose proof (Z.log2_lxor iv bits ltac:(lia) Hb). lia.
Qed.

(** * Looking a symbol up by its own name *)

Lemma find_distinct {A : Type} (key : A -> string) (l : list A) (x : A) :
  distinct (map key l) = true -> In x l ->
  find (fun y => String.eqb (key y) (key x)) l = Some x.
Proof.
  induction l as [|y l IH]; [intros _ []|].
  cbn [map distinct find]. intros Hd Hin.
  apply andb_prop in Hd. destruct Hd as [Hy Hd].
  destruct Hin as [->|Hin].
  - now rewrite String.eqb_refl.
  - destruct (String.eqb (key y) (key x)) eqn:E; [|now apply IH].
    exfalso. apply negb_true_iff in Hy.
    assert (Hex : existsb (String.eqb (key y)) (map key l) = true).
    { apply existsb_exists. exists (key x). split; [|exact E].
      now apply in_map. }
    congruence.
Qed.

Lemma findMethod_distinct (T : RType) (ci : bool) (m : Method) :
  distinct_names ci T = true -> In m (Methods T) ->
  enum.findMethod T (Name m) ci = Some m.
Proof.
  unfold distinct_names, enum.findMethod, MethodByName. intros Hd Hin.
  destruct ci; cbn [negb]; exact (find_distinct _ _ m Hd Hin).
Qed.

Lemma Parse_symbol_name (T : RType) (ci : bool) (n : string) (v : Value) :
  distinct_names ci T = true -> In (n, v) (symbols T) ->
  enum.Parse T n ci = Returns (Some v, None).
Proof.
  intros Hd Hin. destruct (symbols_of_In _ _ _ Hin) as (m & Hm & <- & Hs).
  unfold enum.Parse. rewrite (findMethod_distinct T ci m Hd Hm).
  now rewrite (callMethod_symbol m v Hs).
Qed.

(** * The flag parser on pieces that resolve *)

Lemma ParseUintFlags_loop_resolved (T : RType) (ci : bool) :
  forall (fs : list string) (zs : list Z) (val : Z),
    Forall2 (piece_bits T ci) (map strings.TrimSpace fs) zs ->
    enum.ParseUintFlags_loop T ci fs val
    = Returns (fold_left Z.lor zs val, None).
Proof.
  induction fs as [|f fs IH]; intros zs val H; inversion H; subst.
  - reflexivity.
  - cbn [enum.ParseUintFlags_loop].
    match goal with
    | Hp : piece_bits _ _ _ _ |- _ =>
        destruct Hp as [(v & Hparse & Hu)|(e & Hparse & Hlit)]
    end.
    + rewrite Hparse. cbn [bind enum.is_nil]. rewrite Hu.
      cbn [bind fold_left]. now apply IH.
    + rewrite Hparse. cbn [bind enum.is_nil]. rewrite Hlit.
      cbn [enum.is_nil fold_left]. now apply IH.
Qed.

Lemma trim_pieces (p : string) (rest : list string) :
  forallb (all_chars is_ident_char) (p :: rest) = true ->
  map strings.TrimSpace (p :: map (String " "%char) rest) = p :: rest.
Proof.
  cbn [forallb map]. intros H. apply andb_prop in H. destruct H as [Hp Hr].
  rewrite TrimSpace_word by exact Hp. f_equal.
  induction rest as [|q rest IH]; [reflexivity|].
  cbn [forallb map] in *. apply andb_prop in Hr. destruct Hr as [Hq Hr].
  rewrite TrimSpace_space_word by exact Hq. f_equal. now apply IH.
Qed.

(** Parsing a text of comma-and-space separated pieces. *)
Lemma ParseUintFlags_concat (T : RType) (ci : bool)
      (pieces : list string) (zs : list Z) :
  pieces <> [] ->
  forallb (all_chars is_ident_char) pieces = true ->
  Forall2 (piece_bits T ci) pieces zs ->
  enum.ParseUintFlags T (String.concat ", " pieces) ci
  = Returns (fold_left Z.lor zs 0, None).
Proof.
  intros Hne Hw Hres. destruct pieces as [|p rest]; [congruence|].
  unfold enum.ParseUintFlags. rewrite Split_concat by exact Hw.
  apply ParseUintFlags_loop_resolved.
  now rewrite trim_pieces.
Qed.

Lemma symbol_pieces (T : RType) (ci : bool) (l : list (string * Value)) :
  is_unsigned (TKind T) = true -> well_typed T = true ->
  distinct_names ci T = true ->
  (forall nv, In nv l -> In nv (symbols T)) ->
  Forall2 (piece_bits T ci) (map fst l) (map (fun nv => uint_of (snd nv)) l).
Proof.
  intros Hk Hty Hd. induction l as [|[n v] l IH]; intros Hin; cbn [map].
  - constructor.
  - constructor.
    + left. exists v. cbn [fst snd]. split.
      * apply Parse_symbol_name; [exact Hd|]. apply Hin. now left.
      * unfold well_typed in Hty. rewrite forallb_forall in Hty.
        specialize (Hty (n, v) (Hin _ (or_introl eq_refl))).
        now destruct (has_kind_unsigned _ _ Hk Hty).
    + apply IH. intros nv H. apply Hin. now right.
Qed.

Lemma union_bits_fold (l : list (string * Value)) (acc : Z) :
  fold_left Z.lor (map (fun nv => uint_of (snd nv)) l) acc = union_bits l acc.
Proof.
  revert acc. induction l as [|x l IH]; intros acc; [reflexivity|].
  cbn [map fold_left union_bits]. apply IH.
Qed.

(** * The literal of the unmatched bits *)

Lemma digit_char_ident (d : Z) : is_ident_char (strconv.digit_char d) = true.
Proof.
  unfold strconv.digit_char. generalize (Z.to_nat d). intros n.
  do 37 (destruct n as [|n]; [vm_compute; reflexivity|]).
  reflexivity.
Qed.

Lemma formatBits_loop_word (fuel : nat) :
  forall u b a,
    all_chars is_ident_char a = true ->
    all_chars is_ident_char (strconv.formatBits_loop fuel u b a) = true.
Proof.
  induction fuel as [|fuel IH]; intros u b a Ha; cbn [strconv.formatBits_loop].
  - exact Ha.
  - destruct (b <=? u).
    + apply IH. cbn [all_chars]. now rewrite digit_char_ident.
    + cbn [all_chars]. now rewrite digit_char_ident.
Qed.

Lemma hex_literal_word (u : Z) :
  all_chars is_ident_char (String "0" (String "x" (strconv.formatBits u 16)))
  = true.
Proof.
  cbn [all_chars]. change (is_ident_char "0") with true.
  change (is_ident_char "x") with true. cbn [andb].
  now apply formatBits_loop_word.
Qed.

Lemma hex_literal_piece (T : RType) (ci : bool) (u : Z) :
  is_unsigned (TKind T) = true -> exported_names T = true ->
  0 <= u < 2 ^ (Size (TKind T) * 8) ->
  piece_bits T ci (String "0" (String "x" (strconv.formatBits u 16))) u.
Proof.
  intros Hk Hex Hu. right. eexists. split.
  - apply Parse_not_letter; [exact Hex|reflexivity].
  - apply ParseUint_hex; [|exact Hu].
    apply integer_bitSize. now right.
Qed.

Lemma IsIdentifier_word (s : string) :
  IsIdentifier s = true ->
  all_chars is_ident_char s = true /\ s <> EmptyString.
Proof.
  destruct s as [|c s]; cbn; [discriminate|].
  intros H. apply andb_prop in H. destruct H as [Hc Hs].
  split; [|discriminate]. rewrite Hs, andb_true_r.
  unfold is_ident_char. apply orb_prop in Hc. destruct Hc as [->| ->];
    [reflexivity|apply orb_true_r].
Qed.

(** * Formatting flags and parsing them back *)

Lemma StringUintFlags_zero_found (T : RType) (intBase : Z)
      (nv : string * Value) :
  is_unsigned (TKind T) = true -> well_typed T = true ->
  find is_zero_flag (symbols T) = Some nv ->
  enum.StringUintFlags 0 T intBase = Returns (fst nv).
Proof.
  intros Hk Hty Hfind.
  pose proof (flags_loop_zero T (Methods T) Hk Hty 0 EmptyString []) as H.
  fold (symbols T) in H. rewrite Hfind in H.
  destruct H as (pre & post & _ & _ & Hrun).
  unfold enum.StringUintFlags, enum.GetSymbols.
  rewrite (logged_erase _ _ _ _ []), Hrun. reflexivity.
Qed.

Lemma matched_words (T : RType) (iv : Z) :
  identifier_names T = true ->
  forallb (all_chars is_ident_char) (map fst (matched iv (symbols T))) = true
  /\ forallb (fun n => negb (String.eqb n EmptyString)) (map fst (matched iv (symbols T)))
     = true.
Proof.
  intros Hid.
  pose proof (symbols_of_names (Methods T) IsIdentifier Hid) as Hs.
  fold (symbols T) in Hs. rewrite forallb_forall in Hs.
  split; apply forallb_forall; intros n Hn; apply in_map_iff in Hn;
    destruct Hn as (nv & <- & Hin); apply matched_incl in Hin;
    destruct (IsIdentifier_word _ (Hs nv Hin)) as [Hw Hne].
  - exact Hw.
  - now apply negb_true_iff, String.eqb_neq.
Qed.

(** C1, as the code has it.  On a flag type whose method names are
    distinct under the case rule, for a value of the type's width that is
    not zero or for which the type has a zero-valued symbol, and for base
    16 or any base when no bit of the value is left unmatched,
    [ParseUintFlags] of what [StringUintFlags] writes returns the value,
    the bits no symbol covers included. *)
Theorem ParseUintFlags_StringUintFlags_roundtrip
        (T : RType) (intValue intBase : Z) (caseInsensitive : bool) :
  is_unsigned (TKind T) = true ->
  well_typed T = true ->
  exported_names T = true ->
  identifier_names T = true ->
  distinct_names caseInsensitive T = true ->
  0 <= intValue < 2 ^ bitSize T ->
  (intValue = 0 -> existsb is_zero_flag (symbols T) = true) ->
  (unmatched_bits T intValue <> 0 -> intBase = 16) ->
  exists s,
    enum.StringUintFlags intValue T intBase = Returns s
    /\ enum.ParseUintFlags T s caseInsensitive = Returns (intValue, None).
Proof.
  intros Hk Hty Hex Hid Hd Hr Hz Hbase. unfold bitSize in Hr.
  destruct (Z.eq_dec intValue 0) as [->|Hnz].
  - specialize (Hz eq_refl).
    destruct (find is_zero_flag (symbols T)) as [nv|] eqn:Hfind.
    2:{ apply existsb_exists in Hz. destruct Hz as (x & Hin & Hx).
        pose proof (find_none _ _ Hfind x Hin). congruence. }
    exists (fst nv). split; [now apply StringUintFlags_zero_found|].
    apply find_some in Hfind. destruct Hfind as [Hin Hzero].
    pose proof (symbols_of_names (Methods T) IsIdentifier Hid) as Hs.
    fold (symbols T) in Hs. rewrite forallb_forall in Hs.
    destruct (IsIdentifier_word _ (Hs nv Hin)) as [Hw _].
    change (fst nv) with (String.concat ", " [fst nv]).
    rewrite (ParseUintFlags_concat T caseInsensitive [fst nv]
               [uint_of (snd nv)]).
    + unfold is_zero_flag in Hzero. apply Z.eqb_eq in Hzero.
      now rewrite Hzero.
    + discriminate.
    + cbn [forallb]. now rewrite Hw.
    + apply (symbol_pieces T caseInsensitive [nv] Hk Hty Hd).
      intros x [<-|[]]. exact Hin.
  - rewrite (StringUintFlags_nonzero T intValue intBase Hk Hnz Hty). cbv zeta.
    unfold unmatched_bits in Hbase.
    set (ms := matched intValue (symbols T)) in *.
    set (bits := union_bits ms 0) in *.
    assert (Hsub : Z.land intValue bits = bits).
    { apply union_bits_subset. apply Z.land_0_r. }
    assert (Hnn : 0 <= bits).
    { apply union_bits_nonneg; [lia|]. apply forallb_forall.
      intros nv Hin. apply matched_incl in Hin.
      unfold well_typed in Hty. rewrite forallb_forall in Hty.
      destruct (has_kind_unsigned _ _ Hk (Hty nv Hin)) as (_ & _ & Hv).
      apply Z.leb_le. lia. }
    destruct (matched_words T intValue Hid) as [Hwords Hne].
    fold ms in Hwords, Hne.
    pose proof (symbol_pieces T caseInsensitive ms Hk Hty Hd
                  (fun nv => matched_incl intValue (symbols T) nv)) as Hpieces.
    rewrite (write_names_empty _ Hne).
    destruct (bits =? intValue) eqn:E; cbn [negb].
    + apply Z.eqb_eq in E. eexists. split; [reflexivity|].
      assert (Hsome : map fst ms <> []).
      { intros Hnil. apply map_eq_nil in Hnil.
        unfold bits in E. rewrite Hnil in E. cbn in E. congruence. }
      rewrite (ParseUintFlags_concat T caseInsensitive _ _ Hsome Hwords Hpieces).
      rewrite union_bits_fold. fold bits. now rewrite E.
    + apply Z.eqb_neq in E.
      assert (Hb16 : intBase = 16).
      { apply Hbase. intros Hx. apply Z.lxor_eq in Hx. congruence. }
      subst intBase. unfold strconv.FormatUint.
      change ((16 <? 2) || (36 <? 16)) with false. cbv iota. cbn [bind].
      set (lit := String "0" (String "x"
                    (strconv.formatBits (Z.lxor intValue bits) 16))).
      exists (String.concat ", " (map fst ms ++ [lit])). split.
      * f_equal. unfold strings.WriteString.
        destruct (map fst ms) as [|n names] eqn:En.
        -- reflexivity.
        -- replace (0 <? strings.Len (String.concat ", " (n :: names)))
             with true.
           2:{ symmetry. apply Z.ltb_lt. unfold strings.Len.
               cbn [forallb] in Hne. apply andb_prop in Hne.
               destruct Hne as [Hn _].
               apply negb_true_iff, String.eqb_neq in Hn.
               pose proof (concat_nonempty ", " n names Hn) as Hc.
               destruct (String.concat ", " (n :: names));
                 [congruence|cbn [String.length]; lia]. }
           rewrite concat_snoc by discriminate.
           unfold lit. now rewrite <- !append_assoc.
      * assert (Hrem : 0 <= Z.lxor intValue bits < 2 ^ (Size (TKind T) * 8))
          by (apply remainder_range; assumption).
        rewrite (ParseUintFlags_concat T caseInsensitive _
                   (map (fun nv => uint_of (snd nv)) ms
                    ++ [Z.lxor intValue bits])).
        -- rewrite fold_left_app, union_bits_fold. cbn [fold_left].
           fold bits. now rewrite lor_lxor_subset.
        -- destruct (map fst ms); discriminate.
        -- rewrite forallb_app, Hwords. cbn [forallb andb].
           unfold lit. now rewrite hex_literal_word.
        -- apply Forall2_app; [exact Hpieces|].
           constructor; [|constructor].
           now apply hex_literal_piece.
Qed.

Lemma ParseUintFlags_StringUintFlags_roundtrip_witness :
  is_unsigned (TKind examples.Access) = true
  /\ well_typed examples.Access = true
  /\ exported_names examples.Access = true
  /\ identifier_names examples.Access = true
  /\ distinct_names true examples.Access = true
  /\ 0 <= 262 < 2 ^ bitSize examples.Access
  /\ unmatched_bits examples.Access 262 = 256
  /\ exists s,
      enum.StringUintFlags 262 examples.Access 16 = Returns s
      /\ enum.ParseUintFlags examples.Access s true = Returns (262, None).
Proof.
  do 5 (split; [reflexivity|]).
  split; [vm_compute; split; [discriminate|reflexivity]|].
  split; [reflexivity|].
  apply (ParseUintFlags_StringUintFlags_roundtrip
           examples.Access 262 16 true
           eq_refl eq_refl eq_refl eq_refl eq_refl).
  - vm_compute. split; [discriminate|reflexivity].
  - discriminate.
  - reflexivity.
Defined.

(** The text written for 0 on a flag type without a zero-valued symbol is
    empty and does not parse; and with [caseInsensitive] set and two
    symbols that differ by case only, the name written for the second one
    parses as the first. *)
Lemma ParseUintFlags_StringUintFlags_roundtrip_counterexample :
  (enum.StringUintFlags 0 examples.Perm 16 = Returns EmptyString
   /\ enum.ParseUintFlags examples.Perm EmptyString false
      = Returns (0, Some (enum.CouldntParse EmptyString "Perm")))
  /\ (enum.StringUintFlags 1 examples.Shade 16 = Returns "Red"%string
      /\ enum.ParseUintFlags examples.Shade "Red" true = Returns (2, None))
  /\ ~ (forall T intValue intBase caseInsensitive,
          is_unsigned (TKind T) = true ->
          well_typed T = true ->
          0 <= intValue < 2 ^ bitSize T ->
          exists s,
            enum.StringUintFlags intValue T intBase = Returns s
            /\ enum.ParseUintFlags T s caseInsensitive
               = Returns (intValue, None)).
Proof.
  split; [split; reflexivity|]. split; [split; reflexivity|].
  intros H.
  destruct (H examples.Perm 0 16 false eq_refl eq_refl) as (s & Hs & Hp).
  - vm_compute. split; [discriminate|reflexivity].
  - vm_compute in Hs. inversion Hs. subst s. vm_compute in Hp. discriminate.
Qed.

(** * Methods that are not symbols *)

(** What holds of strict parsing when the text names no method at all. *)
Lemma ParseInt_strict_no_method (T : RType) (s : string) (ci : bool) :
  enum.findMethod T s ci = None ->
  enum.ParseInt T s ci true
  = Returns (None, Some (enum.CouldntParse s (TName T))).
Proof. intros Hf. now rewrite (ParseInt_not_found T s ci true Hf). Qed.

(** What holds of flag parsing when a piece names no method and is no
    literal, and the pieces before it resolve: the value is 0 and the error
    names the piece. *)
Lemma ParseUintFlags_loop_bad_piece (T : RType) (ci : bool)
      (pre : list string) (zs : list Z) (f : string) (post : list string) :
  Forall2 (piece_bits T ci) (map strings.TrimSpace pre) zs ->
  enum.findMethod T (strings.TrimSpace f) ci = None ->
  snd (strconv.ParseUint (strings.TrimSpace f) 0 (Size (TKind T) * 8)) <> None ->
  forall val,
    enum.ParseUintFlags_loop T ci (pre ++ f :: post) val
    = Returns (0, Some (enum.CouldntParse (strings.TrimSpace f) (TName T))).
Proof.
  intros Hpre Hf Hlit. revert zs Hpre.
  induction pre as [|p pre IH]; intros zs Hpre val.
  - cbn [app enum.ParseUintFlags_loop]. unfold enum.Parse. rewrite Hf.
    cbn [bind enum.is_nil].
    destruct (strconv.ParseUint (strings.TrimSpace f) 0 (Size (TKind T) * 8))
      as [i [e|]]; cbn [snd enum.is_nil] in *; [reflexivity|congruence].
  - inversion Hpre; subst. cbn [app enum.ParseUintFlags_loop].
    match goal with
    | Hp : piece_bits _ _ _ _ |- _ =>
        destruct Hp as [(v & Hparse & Hu)|(e & Hparse & Hl)]
    end.
    + rewrite Hparse. cbn [bind enum.is_nil]. rewrite Hu. cbn [bind].
      eapply IH; eassumption.
    + rewrite Hparse. cbn [bind enum.is_nil]. rewrite Hl. cbn [enum.is_nil].
      eapply IH; eassumption.
Qed.

(** C5, on the code.  [String] is a method of Color and of Protocol and no
    symbol of either.  Strict [ParseInt] of that text does not return an
    error: on the integer type the call of the method found panics in
    [Convert], on the string type the converted result is returned as the
    value. *)
Theorem ParseInt_strict_takes_method_that_is_no_symbol :
  ~ In "String"%string (map fst (symbols examples.Color))
  /\ enum.ParseInt examples.Color "String" false true = Panics
  /\ enum.ParseInt examples.Color "string" true true = Panics
  /\ ~ In "String"%string (map fst (symbols examples.Protocol))
  /\ enum.ParseInt examples.Protocol "String" false true
     = Returns (Some (StrV EmptyString), None).
Proof.
  repeat split; try reflexivity; cbn; intuition discriminate.
Qed.

(** C6, on the code.  [IsSet] is a method of Access that takes an argument;
    it is no symbol and no numeric literal.  [ParseUintFlags] of a text with
    that piece returns no error: the call of the method found panics. *)
Theorem ParseUintFlags_takes_method_that_is_no_symbol :
  ~ In "IsSet"%string (map fst (symbols examples.Access))
  /\ snd (strconv.ParseUint "IsSet" 0 (bitSize examples.Access)) <> None
  /\ enum.ParseUintFlags examples.Access "Read, IsSet" false = Panics
  /\ enum.ParseUintFlags examples.Access "isset" true = Panics.
Proof.
  repeat split; try reflexivity; cbn; intuition discriminate.
Qed.

(** What [StringUintFlags] writes for a non-zero value in any legal base:
    the names of the matched symbols and, when bits are left, those bits
    in the base behind the prefix 0x, joined by comma and space. *)
Lemma StringUintFlags_nonzero_joined (T : RType) (iv intBase : Z) :
  is_unsigned (TKind T) = true -> well_typed T = true ->
  identifier_names T = true -> iv <> 0 -> 2 <= intBase <= 36 ->
  enum.StringUintFlags iv T intBase
  = Returns
      (String.concat ", "
         (map fst (matched iv (symbols T))
          ++ if union_bits (matched iv (symbols T)) 0 =? iv then []
             else [String "0" (String "x"
                     (strconv.formatBits
                        (Z.lxor iv (union_bits (matched iv (symbols T)) 0))
                        intBase))])).
Proof.
  intros Hk Hty Hid Hnz Hb.
  rewrite (StringUintFlags_nonzero T iv intBase Hk Hnz Hty). cbv zeta.
  destruct (matched_words T iv Hid) as [_ Hne].
  rewrite (write_names_empty _ Hne).
  destruct (union_bits (matched iv (symbols T)) 0 =? iv); cbn [negb].
  - now rewrite app_nil_r.
  - unfold strconv.FormatUint.
    replace ((intBase <? 2) || (36 <? intBase)) with false
      by (symmetry; apply orb_false_iff; split; apply Z.ltb_ge; lia).
    cbn [bind]. f_equal. unfold strings.WriteString.
    destruct (map fst (matched iv (symbols T))) as [|n names] eqn:En.
    + reflexivity.
    + replace (0 <? strings.Len (String.concat ", " (n :: names))) with true.
      2:{ symmetry. apply Z.ltb_lt. unfold strings.Len.
          cbn [forallb] in Hne. apply andb_prop in Hne.
          destruct Hne as [Hn _].
          apply negb_true_iff, String.eqb_neq in Hn.
          pose proof (concat_nonempty ", " n names Hn) as Hc.
          destruct (String.concat ", " (n :: names));
            [congruence|cbn [String.length]; lia]. }
      rewrite concat_snoc by discriminate.
      now rewrite <- !append_assoc.
Qed.

(** C3, on the code.  The element for the unmatched bits carries the prefix
    0x whatever the base: in base 10 the value 0x106 of Access is written
    with the decimal digits of 0x100 behind the hexadecimal prefix, and in
    base 2 with its binary digits; read back, the base-10 text is 0x256. *)
Theorem StringUintFlags_writes_0x_in_base_10 :
  enum.StringUintFlags 262 examples.Access 10
  = Returns "Execute, Write, 0x256"%string
  /\ enum.StringUintFlags 262 examples.Access 2
     = Returns "Execute, Write, 0x100000000"%string
  /\ enum.StringUintFlags 262 examples.Access 16
     = Returns "Execute, Write, 0x100"%string
  /\ enum.ParseUintFlags examples.Access "Execute, Write, 0x256" false
     = Returns (598, None).
Proof. repeat split; reflexivity. Qed.

(** * The scalar formatter and parser together *)

Lemma Value_eqb_eq (a b : Value) : Value_eqb a b = true -> a = b.
Proof.
  destruct a as [x|x], b as [y|y]; cbn; try discriminate; intros H.
  - apply Z.eqb_eq in H. now subst.
  - apply String.eqb_eq in H. now subst.
Qed.

Lemma Value_eqb_refl (a : Value) : Value_eqb a a = true.
Proof. destruct a; cbn; [apply Z.eqb_refl|apply String.eqb_refl]. Qed.

Lemma find_first_split {A : Type} (p : A -> bool) (l : list A) (x : A) :
  find p l = Some x ->
  exists pre post,
    l = pre ++ x :: post /\ p x = true
    /\ forallb (fun y => negb (p y)) pre = true.
Proof.
  induction l as [|y l IH]; cbn; [discriminate|].
  destruct (p y) eqn:E.
  - intros H. inversion H. subst y. now exists [], l.
  - intros H. destruct (IH H) as (pre & post & -> & Hx & Hpre).
    exists (y :: pre), post. cbn. now rewrite E, Hpre.
Qed.

Lemma find_exists_some {A : Type} (p : A -> bool) (l : list A) (x : A) :
  In x l -> p x = true -> exists y, find p l = Some y.
Proof.
  intros Hin Hp. destruct (find p l) as [y|] eqn:E; [now exists y|].
  pose proof (find_none _ _ E x Hin). congruence.
Qed.

(** X1. [String] returns the name of the first symbol in enumeration order
    whose value is the argument, and the empty string when no symbol has
    that value; it returns whatever other methods the type has. *)
Theorem String_returns_first_symbol_with_value (enumValue : Value) (T : RType) :
  exists s,
    enum.String enumValue T = Returns s
    /\ ((exists pre post,
           symbols T = pre ++ (s, enumValue) :: post
           /\ forallb (fun nv => negb (Value_eqb (snd nv) enumValue)) pre = true)
        \/ (s = EmptyString
            /\ forallb (fun nv => negb (Value_eqb (snd nv) enumValue))
                       (symbols T) = true)).
Proof.
  rewrite String_spec.
  destruct (find (fun nv => Value_eqb (snd nv) enumValue) (symbols T))
    as [[n v]|] eqn:E.
  - exists n. split; [reflexivity|]. left.
    destruct (find_first_split _ _ _ E) as (pre & post & Hl & Hv & Hpre).
    cbn [snd] in Hv. apply Value_eqb_eq in Hv. subst v. now exists pre, post.
  - exists EmptyString. split; [reflexivity|]. right. split; [reflexivity|].
    apply forallb_forall. intros nv Hin.
    now rewrite (find_none _ _ E nv Hin).
Qed.

(** X2. For every symbol of a type whose method names are ASCII
    identifiers, distinct under the case rule, [Parse] of what [String]
    returns for the symbol's value is that value. *)
Theorem Parse_String_roundtrip_symbol
        (T : RType) (caseInsensitive : bool) (n : string) (v : Value) :
  identifier_names T = true ->
  distinct_names caseInsensitive T = true ->
  In (n, v) (symbols T) ->
  exists s,
    enum.String v T = Returns s
    /\ In (s, v) (symbols T)
    /\ enum.Parse T s caseInsensitive = Returns (Some v, None).
Proof.
  intros _ Hd Hin. rewrite String_spec.
  destruct (find_exists_some (fun nv => Value_eqb (snd nv) v) (symbols T) (n, v)
              Hin (Value_eqb_refl v)) as [[n' v'] Hf].
  rewrite Hf. apply find_some in Hf. destruct Hf as [Hin' Hv].
  cbn [snd] in Hv. apply Value_eqb_eq in Hv. subst v'.
  exists n'. split; [reflexivity|]. split; [exact Hin'|].
  now apply Parse_symbol_name.
Qed.

Lemma Parse_String_roundtrip_symbol_witness :
  identifier_names examples.Protocol = true
  /\ distinct_names true examples.Protocol = true
  /\ In ("UDP"%string, StrV "User Datagram Protocol") (symbols examples.Protocol)
  /\ exists s,
      enum.String (StrV "User Datagram Protocol") examples.Protocol = Returns s
      /\ In (s, StrV "User Datagram Protocol") (symbols examples.Protocol)
      /\ enum.Parse examples.Protocol s true
         = Returns (Some (StrV "User Datagram Protocol"), None).
Proof.
  do 2 (split; [reflexivity|]).
  assert (Hin : In ("UDP"%string, StrV "User Datagram Protocol")
                   (symbols examples.Protocol)) by (cbn; auto).
  split; [exact Hin|].
  exact (Parse_String_roundtrip_symbol examples.Protocol true _ _
           eq_refl eq_refl Hin).
Defined.




(** What lenient [ParseInt] makes of the decimal rendering of a value of
    the type. *)
Lemma ParseInt_decimal (T : RType) (v : Z) (ci : bool) :
  exported_names T = true -> in_range (TKind T) v = true ->
  enum.ParseInt T (fmt.Sprintf_d v) ci false = Returns (Some (IntV v), None).
Proof.
  intros Hex Hr.
  assert (Hlit : numericLiteral T (fmt.Sprintf_d v) = Some v).
  { unfold numericLiteral, bitSize.
    pose proof (integer_bitSize (TKind T)) as Hbits.
    destruct (in_range_cases _ _ Hr) as [(Hu & Hs & Hv)|(Hs & Hu & Hv)];
      rewrite Hs.
    - unfold fmt.Sprintf_d.
      replace (v <? 0) with false by (symmetry; apply Z.ltb_ge; lia).
      rewrite ParseUint_dec by (auto; lia). reflexivity.
    - rewrite ParseInt_dec by (auto; lia). reflexivity. }
  assert (Hnf : enum.findMethod T (fmt.Sprintf_d v) ci = None).
  { apply findMethod_not_letter; [exact Hex|].
    apply Sprintf_d_not_letter.
    pose proof (integer_bitSize (TKind T)) as Hbits.
    destruct (in_range_cases _ _ Hr) as [(Hu & Hs & Hv)|(Hs & Hu & Hv)].
    - pose proof (pow2_bits_le _ (Hbits (or_intror Hu))). lia.
    - pose proof (pow2_bits_le _ (Hbits (or_introl Hs))) as Hp.
      assert (2 ^ (Size (TKind T) * 8) = 2 * 2 ^ (Size (TKind T) * 8 - 1)).
      { rewrite <- Z.pow_succ_r by (specialize (Hbits (or_introl Hs)); lia).
        f_equal. lia. }
      lia. }
  rewrite (ParseInt_not_found T _ ci false Hnf), Hlit. reflexivity.
Qed.

Lemma symbol_name_exported (T : RType) (n : string) (v : Value) :
  exported_names T = true -> In (n, v) (symbols T) -> n <> EmptyString.
Proof.
  intros Hex Hin.
  pose proof (symbols_of_names (Methods T) IsExported Hex) as Hs.
  rewrite forallb_forall in Hs. specialize (Hs (n, v) Hin). cbn in Hs.
  intros ->. discriminate.
Qed.

(** The text [StringInt] returns parses back to the value. *)
Lemma StringInt_text_parses_back
        (T : RType) (v : Z) (caseInsensitive : bool) :
  exported_names T = true ->
  distinct_names caseInsensitive T = true ->
  in_range (TKind T) v = true ->
  exists s,
    enum.StringInt v T = Returns s
    /\ enum.ParseInt T s caseInsensitive false = Returns (Some (IntV v), None)
    /\ ((exists n, In (n, IntV v) (symbols T)) ->
        enum.ParseInt T s caseInsensitive true = Returns (Some (IntV v), None)).
Proof.
  intros Hex Hd Hr. unfold enum.StringInt. rewrite String_spec. cbn [bind].
  destruct (find (fun nv => Value_eqb (snd nv) (IntV v)) (symbols T))
    as [[n w]|] eqn:E.
  - apply find_some in E. destruct E as [Hin Hw].
    cbn [snd] in Hw. apply Value_eqb_eq in Hw. subst w. cbn [fst].
    pose proof (symbol_name_exported T n _ Hex Hin) as Hne.
    apply String.eqb_neq in Hne. rewrite Hne. cbn [negb].
    exists n. split; [reflexivity|].
    pose proof (Parse_symbol_name T caseInsensitive n _ Hd Hin) as Hp.
    split; [|intros _]; now apply ParseInt_of_Parse_ok.
  - cbn [negb String.eqb]. exists (fmt.Sprintf_d v).
    split; [reflexivity|]. split; [now apply ParseInt_decimal|].
    intros [n Hin]. pose proof (find_none _ _ E _ Hin) as Hn.
    cbn [snd] in Hn. now rewrite Value_eqb_refl in Hn.
Qed.



(** * The flag parser piece by piece *)

(** One step of the flags loop, by what the piece is. *)
Lemma ParseUintFlags_loop_cons (T : RType) (ci : bool)
      (f : string) (rest : list string) (val : Z) :
  enum.ParseUintFlags_loop T ci (f :: rest) val
  = match enum.findMethod T (strings.TrimSpace f) ci with
    | Some m =>
        v <- enum.callMethod m ;;
        u <- Value_Uint (TKind T) v ;;
        enum.ParseUintFlags_loop T ci rest (Z.lor val u)
    | None =>
        match strconv.ParseUint (strings.TrimSpace f) 0 (Size (TKind T) * 8) with
        | (i, None) => enum.ParseUintFlags_loop T ci rest (Z.lor val i)
        | (_, Some _) =>
            Returns (0, Some (enum.CouldntParse (strings.TrimSpace f) (TName T)))
        end
    end.
Proof.
  cbn [enum.ParseUintFlags_loop]. unfold enum.Parse.
  destruct (enum.findMethod T (strings.TrimSpace f) ci) as [m|].
  - destruct (enum.callMethod m) as [v|]; reflexivity.
  - cbn [bind enum.is_nil].
    destruct (strconv.ParseUint _ _ _) as [i [e|]]; reflexivity.
Qed.

Lemma ParseUintFlags_loop_error (T : RType) (ci : bool) (fs : list string) :
  forall val v e,
    enum.ParseUintFlags_loop T ci fs val = Returns (v, Some e) ->
    v = 0
    /\ exists f,
        In f fs
        /\ e = enum.CouldntParse (strings.TrimSpace f) (TName T)
        /\ enum.findMethod T (strings.TrimSpace f) ci = None
        /\ snd (strconv.ParseUint (strings.TrimSpace f) 0 (bitSize T)) <> None.
Proof.
  induction fs as [|f fs IH]; intros val v e.
  - cbn. discriminate.
  - rewrite ParseUintFlags_loop_cons.
    destruct (enum.findMethod T (strings.TrimSpace f) ci) as [m|] eqn:Hf.
    + destruct (enum.callMethod m) as [x|]; cbn [bind]; [|discriminate].
      destruct (Value_Uint (TKind T) x) as [u|]; cbn [bind]; [|discriminate].
      intros H. destruct (IH _ _ _ H) as (Hv & g & Hin & Hrest).
      split; [exact Hv|]. exists g. split; [now right|exact Hrest].
    + destruct (strconv.ParseUint _ _ _) as [i [err|]] eqn:Hp.
      * intros H. inversion H. subst. split; [reflexivity|].
        exists f. split; [now left|]. split; [reflexivity|].
        split; [exact Hf|]. unfold bitSize. rewrite Hp. discriminate.
      * intros H. destruct (IH _ _ _ H) as (Hv & g & Hin & Hrest).
        split; [exact Hv|]. exists g. split; [now right|exact Hrest].
Qed.

(** X5. On an ASCII text (and, with [caseInsensitive] set, a type whose
    method names are ASCII identifiers): whenever [ParseUintFlags] returns
    an error, the value beside it is 0, and the error names the type and
    one trimmed piece of the text, a piece that is the name of no method
    and no literal of the type's width. *)
Theorem ParseUintFlags_error_has_zero_value_and_names_a_piece
        (T : RType) (s : string) (caseInsensitive : bool)
        (v : Z) (e : enum.error) :
  is_ascii s = true ->
  lowering_is_ascii caseInsensitive T s = true ->
  enum.ParseUintFlags T s caseInsensitive = Returns (v, Some e) ->
  v = 0
  /\ exists f,
      In f (strings.Split s ",")
      /\ e = enum.CouldntParse (strings.TrimSpace f) (TName T)
      /\ enum.findMethod T (strings.TrimSpace f) caseInsensitive = None
      /\ snd (strconv.ParseUint (strings.TrimSpace f) 0 (bitSize T)) <> None.
Proof. intros _ _. apply ParseUintFlags_loop_error. Qed.

Lemma ParseUintFlags_error_has_zero_value_and_names_a_piece_witness :
  is_ascii "read, Purple ,Write" = true
  /\ lowering_is_ascii true examples.Access "read, Purple ,Write" = true
  /\ enum.ParseUintFlags examples.Access "read, Purple ,Write" true
     = Returns (0, Some (enum.CouldntParse "Purple" "Access"))
  /\ exists f,
      In f (strings.Split "read, Purple ,Write" ",")
      /\ enum.CouldntParse "Purple" "Access"
         = enum.CouldntParse (strings.TrimSpace f) (TName examples.Access)
      /\ enum.findMethod examples.Access (strings.TrimSpace f) true = None
      /\ snd (strconv.ParseUint (strings.TrimSpace f) 0
                (bitSize examples.Access)) <> None.
Proof.
  assert (H : enum.ParseUintFlags examples.Access "read, Purple ,Write" true
              = Returns (0, Some (enum.CouldntParse "Purple" "Access")))
    by reflexivity.
  do 2 (split; [reflexivity|]).
  split; [exact H|].
  exact (proj2 (ParseUintFlags_error_has_zero_value_and_names_a_piece
                  examples.Access "read, Purple ,Write" true _ _
                  eq_refl eq_refl H)).
Defined.

Lemma Split_app (a b : string) :
  strings.Split (a ++ String "," b) ","
  = strings.Split a "," ++ strings.Split b ",".
Proof.
  induction a as [|c a IH]; cbn [String.append strings.Split].
  - reflexivity.
  - rewrite IH. destruct (Ascii.eqb c ","); [reflexivity|].
    destruct (strings.Split a ",") as [|h t] eqn:E; [|reflexivity].
    exfalso. destruct a as [|c' a']; cbn in E; [discriminate|].
    destruct (Ascii.eqb c' ","); [discriminate|].
    destruct (strings.Split a' ","); discriminate.
Qed.

Lemma ParseUintFlags_loop_app (T : RType) (ci : bool) (l1 l2 : list string) :
  forall val,
    enum.ParseUintFlags_loop T ci (l1 ++ l2) val
    = after_pieces (enum.ParseUintFlags_loop T ci l1 val)
                   (enum.ParseUintFlags_loop T ci l2).
Proof.
  induction l1 as [|f l1 IH]; intros val; [reflexivity|].
  cbn [app]. rewrite !ParseUintFlags_loop_cons.
  destruct (enum.findMethod T (strings.TrimSpace f) ci) as [m|].
  - destruct (enum.callMethod m) as [x|]; cbn [bind]; [|reflexivity].
    destruct (Value_Uint (TKind T) x) as [u|]; cbn [bind]; [|reflexivity].
    apply IH.
  - destruct (strconv.ParseUint _ _ _) as [i [err|]]; [reflexivity|apply IH].
Qed.

Lemma ParseUintFlags_loop_from (T : RType) (ci : bool) (l : list string) :
  forall val,
    enum.ParseUintFlags_loop T ci l val
    = after_pieces (enum.ParseUintFlags_loop T ci l 0)
                   (fun x => Returns (Z.lor val x, None)).
Proof.
  induction l as [|f l IH]; intros val.
  - cbn. now rewrite Z.lor_0_r.
  - rewrite !ParseUintFlags_loop_cons.
    destruct (enum.findMethod T (strings.TrimSpace f) ci) as [m|].
    + destruct (enum.callMethod m) as [x|]; cbn [bind]; [|reflexivity].
      destruct (Value_Uint (TKind T) x) as [u|]; cbn [bind]; [|reflexivity].
      rewrite (IH (Z.lor val u)), (IH (Z.lor 0 u)).
      destruct (enum.ParseUintFlags_loop T ci l 0) as [[y [e|]]|];
        cbn [after_pieces]; try reflexivity.
      now rewrite Z.lor_0_l, Z.lor_assoc.
    + destruct (strconv.ParseUint _ _ _) as [i [err|]]; [reflexivity|].
      rewrite (IH (Z.lor val i)), (IH (Z.lor 0 i)).
      destruct (enum.ParseUintFlags_loop T ci l 0) as [[y [e|]]|];
        cbn [after_pieces]; try reflexivity.
      now rewrite Z.lor_0_l, Z.lor_assoc.
Qed.

(** X6. [ParseUintFlags] of two texts joined by a comma: when both parse,
    the result is the bitwise OR of their values; otherwise it is the
    result (error or panic) of the first of the two that does not parse. *)
Theorem ParseUintFlags_of_comma_joined_texts
        (T : RType) (a b : string) (caseInsensitive : bool) :
  enum.ParseUintFlags T (a ++ String "," b) caseInsensitive
  = match enum.ParseUintFlags T a caseInsensitive with
    | Returns (x, None) =>
        match enum.ParseUintFlags T b caseInsensitive with
        | Returns (y, None) => Returns (Z.lor x y, None)
        | other => other
        end
    | other => other
    end.
Proof.
  unfold enum.ParseUintFlags. rewrite Split_app, ParseUintFlags_loop_app.
  destruct (enum.ParseUintFlags_loop T caseInsensitive (strings.Split a ",") 0)
    as [[x [e|]]|]; cbn [after_pieces]; try reflexivity.
  rewrite ParseUintFlags_loop_from.
  destruct (enum.ParseUintFlags_loop T caseInsensitive (strings.Split b ",") 0)
    as [[y [e|]]|]; reflexivity.
Qed.

(** * Values stay in the type's range *)

Lemma lor_range (a b N : Z) :
  0 <= N -> 0 <= a < 2 ^ N -> 0 <= b < 2 ^ N -> 0 <= Z.lor a b < 2 ^ N.
Proof.
  intros HN Ha Hb.
  assert (Hnn : 0 <= Z.lor a b) by (apply Z.lor_nonneg; lia).
  split; [exact Hnn|].
  destruct (Z.eq_dec (Z.lor a b) 0) as [->|Hnz];
    [apply Z.pow_pos_nonneg; lia|].
  apply Z.log2_lt_pow2; [lia|].
  rewrite Z.log2_lor by lia.
  destruct (Z.eq_dec a 0) as [->|Ha0], (Z.eq_dec b 0) as [->|Hb0].
  - now rewrite Z.lor_0_l in Hnz.
  - rewrite Z.max_r by (cbn; apply Z.log2_nonneg).
    apply Z.log2_lt_pow2; lia.
  - rewrite Z.max_l by (cbn; apply Z.log2_nonneg).
    apply Z.log2_lt_pow2; lia.
  - apply Z.max_lub_lt; apply Z.log2_lt_pow2; lia.
Qed.

Lemma results_typed_call (T : RType) (m : Method) (v : Value) :
  results_typed T = true -> In m (Methods T) ->
  enum.callMethod m = Returns v -> has_kind (TKind T) v = true.
Proof.
  unfold results_typed. intros Hty Hin Hc.
  rewrite forallb_forall in Hty. specialize (Hty m Hin). now rewrite Hc in Hty.
Qed.

Lemma findMethod_In (T : RType) (s : string) (ci : bool) (m : Method) :
  enum.findMethod T s ci = Some m -> In m (Methods T).
Proof.
  unfold enum.findMethod, MethodByName.
  destruct ci; cbn [negb]; intros H; now apply find_some in H.
Qed.

Lemma numericLiteral_in_range (T : RType) (s : string) (n : Z) :
  numericLiteral T s = Some n -> in_range (TKind T) n = true.
Proof.
  unfold numericLiteral, bitSize, in_range.
  destruct (is_signed (TKind T)) eqn:Hs.
  - destruct (strconv.ParseInt s 0 (Size (TKind T) * 8)) as [x [e|]] eqn:EP;
      cbn [fst snd enum.is_nil]; [discriminate|].
    intros H. inversion H. subst x.
    pose proof (integer_bitSize _ (or_introl Hs)) as Hb.
    apply ParseInt_ok_range in EP; [|lia]. destruct EP as [_ Hn].
    replace (is_unsigned (TKind T)) with false
      by (destruct (TKind T); cbn in *; congruence).
    apply andb_true_intro. split; [apply Z.leb_le|apply Z.ltb_lt]; lia.
  - destruct (strconv.ParseUint s 0 (Size (TKind T) * 8)) as [x [e|]] eqn:EP;
      cbn [fst snd enum.is_nil]; [discriminate|].
    intros H. inversion H. subst x.
    destruct (is_unsigned (TKind T)) eqn:Hu.
    + pose proof (integer_bitSize _ (or_intror Hu)) as Hb.
      apply ParseUint_ok_range in EP.
      replace (Size (TKind T) * 8 =? 0) with false in EP
        by (symmetry; apply Z.eqb_neq; lia).
      apply andb_true_intro. split; [apply Z.leb_le|apply Z.ltb_lt]; lia.
    + exfalso. destruct (TKind T); try discriminate.
      apply (ParseUint_bitSize_128 s). cbn [Size] in EP.
      change (16 * 8) with 128 in EP. now rewrite EP.
Qed.

(** X7. Every value [ParseInt] returns is a value of the enum type: the
    result of a method of the type, or in lenient mode an integer literal
    within the range of the type's kind.  Where the lookup lowers ASCII
    only (the exact lookup, or ASCII names and text), a text that names no
    method and is no literal within that range is refused with the error
    that names the text. *)
Theorem ParseInt_returns_values_of_the_type
        (T : RType) (s : string) (caseInsensitive strict : bool) :
  results_typed T = true ->
  (forall v e,
      enum.ParseInt T s caseInsensitive strict = Returns (Some v, e) ->
      has_kind (TKind T) v = true)
  /\ (lowering_is_ascii caseInsensitive T s = true ->
      enum.findMethod T s caseInsensitive = None ->
      numericLiteral T s = None ->
      enum.ParseInt T s caseInsensitive strict
      = Returns (None, Some (enum.CouldntParse s (TName T)))).
Proof.
  intros Hty. split.
  - intros v e. destruct (enum.findMethod T s caseInsensitive) as [m|] eqn:Hf.
    + rewrite (ParseInt_found _ _ _ _ _ Hf).
      destruct (enum.callMethod m) as [x|] eqn:Hc; [|discriminate].
      cbn [bind]. intros H. inversion H. subst x.
      exact (results_typed_call T m v Hty (findMethod_In _ _ _ _ Hf) Hc).
    + rewrite (ParseInt_not_found _ _ _ _ Hf).
      destruct strict; [discriminate|].
      destruct (numericLiteral T s) as [n|] eqn:Hl; [|discriminate].
      intros H. inversion H. subst. cbn [has_kind].
      now apply numericLiteral_in_range in Hl.
  - intros _ Hf Hl. rewrite (ParseInt_not_found _ _ _ _ Hf), Hl.
    now destruct strict.
Qed.

Lemma ParseInt_returns_values_of_the_type_witness :
  results_typed examples.Color8 = true
  /\ lowering_is_ascii true examples.Color8 "256" = true
  /\ enum.findMethod examples.Color8 "256" true = None
  /\ numericLiteral examples.Color8 "256" = None
  /\ enum.ParseInt examples.Color8 "256" true false
     = Returns (None, Some (enum.CouldntParse "256" "Color")).
Proof.
  do 4 (split; [reflexivity|]).
  exact (proj2 (ParseInt_returns_values_of_the_type
                  examples.Color8 "256" true false eq_refl)
               eq_refl eq_refl eq_refl).
Defined.

Lemma ParseUintFlags_loop_range (T : RType) (ci : bool) (fs : list string) :
  results_typed T = true ->
  forall val v,
    0 <= val < 2 ^ bitSize T ->
    enum.ParseUintFlags_loop T ci fs val = Returns (v, None) ->
    fs <> [] ->
    0 <= v < 2 ^ bitSize T /\ 0 < bitSize T <= 64.
Proof.
  intros Hty. induction fs as [|f fs IH]; intros val v Hval Hrun Hne;
    [congruence|].
  rewrite ParseUintFlags_loop_cons in Hrun.
  assert (Hstep : forall u,
             0 <= u < 2 ^ bitSize T -> 0 < bitSize T <= 64 ->
             enum.ParseUintFlags_loop T ci fs (Z.lor val u) = Returns (v, None) ->
             0 <= v < 2 ^ bitSize T /\ 0 < bitSize T <= 64).
  { intros u Hu Hb Hr.
    assert (Hlor : 0 <= Z.lor val u < 2 ^ bitSize T) by (apply lor_range; lia).
    destruct fs as [|g fs'].
    - cbn in Hr. inversion Hr. subst v. split; assumption.
    - apply (IH _ _ Hlor Hr). discriminate. }
  destruct (enum.findMethod T (strings.TrimSpace f) ci) as [m|] eqn:Hf.
  - destruct (enum.callMethod m) as [x|] eqn:Hc; cbn [bind] in Hrun;
      [|discriminate].
    pose proof (results_typed_call T m x Hty (findMethod_In _ _ _ _ Hf) Hc)
      as Hk.
    destruct (Value_Uint (TKind T) x) as [u|] eqn:Hu; cbn [bind] in Hrun;
      [|discriminate].
    assert (Huns : is_unsigned (TKind T) = true).
    { unfold Value_Uint in Hu. destruct x; [|discriminate].
      now destruct (is_unsigned (TKind T)). }
    destruct (has_kind_unsigned _ _ Huns Hk) as (Hu' & _ & Hr).
    rewrite Hu' in Hu. inversion Hu. subst u.
    apply (Hstep _ Hr); [|exact Hrun].
    apply integer_bitSize. now right.
  - destruct (strconv.ParseUint _ _ _) as [i [err|]] eqn:Hp; [discriminate|].
    apply ParseUint_ok_range in Hp. fold (bitSize T) in Hp.
    assert (Hb : 0 < bitSize T <= 64).
    { unfold bitSize in *. destruct (TKind T); cbn in *; lia. }
    replace (bitSize T =? 0) with false in Hp
      by (symmetry; apply Z.eqb_neq; lia).
    apply (Hstep i); [lia|exact Hb|exact Hrun].
Qed.

(** X8. A value [ParseUintFlags] returns without an error fits the width
    of the enum type: literals wider than the type are refused, not
    truncated. *)
Theorem ParseUintFlags_value_fits_the_type
        (T : RType) (s : string) (caseInsensitive : bool) (v : Z) :
  results_typed T = true ->
  enum.ParseUintFlags T s caseInsensitive = Returns (v, None) ->
  0 <= v < 2 ^ bitSize T.
Proof.
  intros Hty Hrun. unfold enum.ParseUintFlags in Hrun.
  assert (Hne : strings.Split s "," <> []).
  { destruct s as [|c s]; cbn; [discriminate|].
    destruct (Ascii.eqb c ","); [discriminate|].
    destruct (strings.Split s ","); discriminate. }
  assert (Hb : 0 < bitSize T) by (unfold bitSize; destruct (TKind T); cbn; lia).
  assert (H0 : 0 <= 0 < 2 ^ bitSize T).
  { split; [lia|]. apply Z.pow_pos_nonneg; lia. }
  exact (proj1 (ParseUintFlags_loop_range T caseInsensitive _ Hty 0 v H0 Hrun Hne)).
Qed.

Lemma ParseUintFlags_value_fits_the_type_witness :
  results_typed examples.Access = true
  /\ enum.ParseUintFlags examples.Access "read, execute, 0x1001" true
     = Returns (4101, None)
  /\ 0 <= 4101 < 2 ^ bitSize examples.Access.
Proof.
  split; [reflexivity|].
  assert (H : enum.ParseUintFlags examples.Access "read, execute, 0x1001" true
              = Returns (4101, None)) by reflexivity.
  split; [exact H|].
  exact (ParseUintFlags_value_fits_the_type examples.Access _ true 4101
           eq_refl H).
Defined.

(** * Hexadecimal literals in lenient parsing *)

Lemma ParseInt_hex (bits u : Z) :
  0 < bits <= 64 -> 0 <= u < 2 ^ (bits - 1) ->
  strconv.ParseInt (String "0" (String "x" (strconv.formatBits u 16))) 0 bits
  = (u, None).
Proof.
  intros Hbits Hu.
  assert (Hpow : 2 ^ bits = 2 * 2 ^ (bits - 1)).
  { rewrite <- Z.pow_succ_r by lia. f_equal. lia. }
  unfold strconv.ParseInt.
  change (byte "0" =? 43) with false. change (byte "0" =? 45) with false.
  cbv iota. rewrite ParseUint_hex by lia.
  replace (bits =? 0) with false by (symmetry; apply Z.eqb_neq; lia).
  cbn [negb andb].
  replace (2 ^ (bits - 1) <=? u) with false by (symmetry; apply Z.leb_gt; lia).
  reflexivity.
Qed.

(** X9. Lenient [ParseInt] reads a hexadecimal literal: for every
    non-negative value of an integer enum type, the text 0x followed by
    the value's hexadecimal digits parses to the value. *)
Theorem ParseInt_lenient_reads_hexadecimal
        (T : RType) (v : Z) (caseInsensitive : bool) :
  exported_names T = true ->
  in_range (TKind T) v = true ->
  0 <= v ->
  enum.ParseInt T (String "0" (String "x" (strconv.formatBits v 16)))
    caseInsensitive false
  = Returns (Some (IntV v), None).
Proof.
  intros Hex Hr Hv.
  assert (Hnf : enum.findMethod T
                  (String "0" (String "x" (strconv.formatBits v 16)))
                  caseInsensitive = None)
    by (apply findMethod_not_letter; [exact Hex|reflexivity]).
  rewrite (ParseInt_not_found T _ caseInsensitive false Hnf).
  unfold numericLiteral, bitSize.
  pose proof (integer_bitSize (TKind T)) as Hbits.
  destruct (in_range_cases _ _ Hr) as [(Hu & Hs & Hrange)|(Hs & Hu & Hrange)];
    rewrite Hs.
  - rewrite ParseUint_hex by (auto; lia). reflexivity.
  - rewrite ParseInt_hex by (auto; lia). reflexivity.
Qed.

Lemma ParseInt_lenient_reads_hexadecimal_witness :
  exported_names examples.Color = true
  /\ in_range (TKind examples.Color) 21 = true
  /\ enum.ParseInt examples.Color "0x15" true false
     = Returns (Some (IntV 21), None).
Proof.
  do 2 (split; [reflexivity|]).
  exact (ParseInt_lenient_reads_hexadecimal examples.Color 21 true
           eq_refl eq_refl ltac:(discriminate)).
Defined.

(** * The base of the flag formatter *)

(** X10. For a non-zero value on a flag type, [StringUintFlags] consults
    the base only when some bit of the value is matched by no symbol: with
    every bit matched it returns the matched names joined by comma and
    space in every base, legal or not; with a bit unmatched and a base
    outside 2..36 it panics. *)
Theorem StringUintFlags_consults_base_only_for_unmatched_bits
        (T : RType) (intValue intBase : Z) :
  is_unsigned (TKind T) = true ->
  well_typed T = true ->
  identifier_names T = true ->
  intValue <> 0 ->
  (unmatched_bits T intValue = 0 ->
   enum.StringUintFlags intValue T intBase
   = Returns (String.concat ", " (map fst (matched intValue (symbols T)))))
  /\ (unmatched_bits T intValue <> 0 ->
      intBase < 2 \/ 36 < intBase ->
      enum.StringUintFlags intValue T intBase = Panics).
Proof.
  intros Hk Hty Hid Hnz.
  rewrite (StringUintFlags_nonzero T intValue intBase Hk Hnz Hty). cbv zeta.
  unfold unmatched_bits. split.
  - intros H0. apply Z.lxor_eq in H0.
    replace (union_bits (matched intValue (symbols T)) 0 =? intValue) with true
      by (symmetry; apply Z.eqb_eq; congruence).
    cbn [negb]. destruct (matched_words T intValue Hid) as [_ Hne].
    now rewrite (write_names_empty _ Hne).
  - intros Hx Hbase.
    replace (union_bits (matched intValue (symbols T)) 0 =? intValue) with false.
    2:{ symmetry. apply Z.eqb_neq. intros E. apply Hx.
        rewrite E. apply Z.lxor_nilpotent. }
    cbn [negb]. unfold strconv.FormatUint.
    replace ((intBase <? 2) || (36 <? intBase)) with true; [reflexivity|].
    symmetry. apply orb_true_iff.
    destruct Hbase; [left; apply Z.ltb_lt|right; apply Z.ltb_lt]; lia.
Qed.

Lemma StringUintFlags_consults_base_only_for_unmatched_bits_witness :
  is_unsigned (TKind examples.Access) = true
  /\ well_typed examples.Access = true
  /\ identifier_names examples.Access = true
  /\ unmatched_bits examples.Access 6 = 0
  /\ enum.StringUintFlags 6 examples.Access 0 = Returns "Execute, Write"%string
  /\ unmatched_bits examples.Access 262 = 256
  /\ enum.StringUintFlags 262 examples.Access 0 = Panics.
Proof.
  pose proof (StringUintFlags_consults_base_only_for_unmatched_bits
                examples.Access 6 0 eq_refl eq_refl eq_refl
                ltac:(discriminate)) as [H6 _].
  pose proof (StringUintFlags_consults_base_only_for_unmatched_bits
                examples.Access 262 0 eq_refl eq_refl eq_refl
                ltac:(discriminate)) as [_ H262].
  do 4 (split; [reflexivity|]).
  split; [exact (H6 eq_refl)|]. split; [reflexivity|].
  apply H262; [discriminate|left; reflexivity].
Defined.

(** * Flag functions on a type that is not unsigned *)

Lemma GetSymbols_loop_first_panics (St : Type) (esi : enum.SymbolInfo St)
      (ms : list Method) (n : string) (v : Value)
      (rest : list (string * Value)) (st : St) :
  symbols_of ms = (n, v) :: rest ->
  esi n v st = Panics ->
  enum.GetSymbols_loop ms esi st = Panics.
Proof.
  induction ms as [|m ms IH]; [discriminate|].
  rewrite symbols_of_cons. destruct (symbolValue m) as [w|] eqn:Hs.
  - intros H Hp. inversion H. subst.
    cbn [enum.GetSymbols_loop].
    rewrite (symbolValue_Some_valid m v Hs), (callMethod_symbol m v Hs).
    cbn [negb bind]. now rewrite Hp.
  - intros H Hp. rewrite loop_skip by exact Hs. now apply IH.
Qed.

(** X11. The flag functions need an unsigned enum type.  On a type of any
    other kind that has a symbol, [StringUintFlags] panics for every value
    and base, and [ParseUintFlags] panics on every text whose first piece
    is the name of a method. *)
Theorem flag_functions_panic_unless_unsigned (T : RType) :
  is_unsigned (TKind T) = false ->
  (symbols T <> [] ->
   forall intValue intBase, enum.StringUintFlags intValue T intBase = Panics)
  /\ (forall s caseInsensitive f rest m,
        strings.Split s "," = f :: rest ->
        enum.findMethod T (strings.TrimSpace f) caseInsensitive = Some m ->
        enum.ParseUintFlags T s caseInsensitive = Panics).
Proof.
  intros Hk. split.
  - intros Hne intValue intBase.
    destruct (symbols T) as [|[n v] rest] eqn:Hsym; [congruence|].
    unfold enum.StringUintFlags, enum.GetSymbols.
    rewrite (GetSymbols_loop_first_panics _ _ (Methods T) n v rest);
      [reflexivity|exact Hsym|].
    unfold enum.flagsCallback, Value_Uint. rewrite Hk. now destruct v.
  - intros s ci f rest m Hsplit Hf. unfold enum.ParseUintFlags.
    rewrite Hsplit, ParseUintFlags_loop_cons, Hf.
    destruct (enum.callMethod m) as [v|]; cbn [bind]; [|reflexivity].
    unfold Value_Uint. rewrite Hk. now destruct v.
Qed.

Lemma flag_functions_panic_unless_unsigned_witness :
  is_unsigned (TKind examples.Color) = false
  /\ symbols examples.Color <> []
  /\ enum.StringUintFlags 1 examples.Color 16 = Panics
  /\ enum.ParseUintFlags examples.Color "Red, Blue" false = Panics.
Proof.
  pose proof (flag_functions_panic_unless_unsigned examples.Color eq_refl)
    as [Hs Hp].
  split; [reflexivity|].
  assert (Hne : symbols examples.Color <> []) by discriminate.
  split; [exact Hne|]. split; [exact (Hs Hne 1 16)|].
  apply (Hp "Red, Blue"%string false "Red"%string [" Blue"%string]
            (examples.symbol "Red" (IntV 1))); reflexivity.
Defined.

(** * Parse on a type that has only symbols *)

Lemma Parse_loop_only_symbols (ci : bool) (s tname : string) (ms : list Method) :
  forallb enum.isValidEnumSymbolMethod ms = true ->
  match find (fun m => String.eqb (lookup_key ci m)
                                  (if ci then strings.ToLower s else s)) ms with
  | Some m => v <- enum.callMethod m ;; Returns (Some v, None)
  | None => Returns (None, Some (enum.CouldntParse s tname))
  end
  = match find (name_matches ci s) (symbols_of ms) with
    | Some nv => Returns (Some (snd nv), None)
    | None => Returns (None, Some (enum.CouldntParse s tname))
    end.
Proof.
  induction ms as [|m ms IH]; [reflexivity|].
  cbn [forallb]. intros H. apply andb_prop in H. destruct H as [Hm Hms].
  destruct (symbolValue_valid m Hm) as [v Hv].
  rewrite symbols_of_cons, Hv. cbn [find].
  unfold name_matches at 1. cbn [fst]. unfold lookup_key at 1.
  destruct ci.
  - destruct (String.eqb (strings.ToLower (Name m)) (strings.ToLower s)).
    + now rewrite (callMethod_symbol m v Hv).
    + now apply IH.
  - destruct (String.eqb (Name m) s).
    + now rewrite (callMethod_symbol m v Hv).
    + now apply IH.
Qed.

(** X12. On a type all of whose exported methods are symbols, and where
    the lookup lowers ASCII only (the exact lookup, or ASCII names and
    text), [Parse] and strict [ParseInt] never panic and agree with the
    enumeration of [GetSymbols]: they return the value of the first symbol
    whose name is the text under the case rule, and when there is none, no
    value and the error naming the text and the type. *)
Theorem Parse_agrees_with_symbols_on_types_with_only_symbols
        (T : RType) (s : string) (caseInsensitive : bool) :
  only_symbols T = true ->
  lowering_is_ascii caseInsensitive T s = true ->
  enum.Parse T s caseInsensitive
  = match find (name_matches caseInsensitive s) (symbols T) with
    | Some nv => Returns (Some (snd nv), None)
    | None => Returns (None, Some (enum.CouldntParse s (TName T)))
    end
  /\ enum.ParseInt T s caseInsensitive true = enum.Parse T s caseInsensitive.
Proof.
  intros Hall _. split.
  - unfold symbols.
    rewrite <- (Parse_loop_only_symbols caseInsensitive s (TName T)
                  (Methods T) Hall).
    unfold enum.Parse, enum.findMethod, MethodByName, lookup_key.
    now destruct caseInsensitive.
  - unfold enum.ParseInt.
    destruct (enum.Parse T s caseInsensitive) as [[v e]|]; cbn [bind];
      [|reflexivity].
    now rewrite orb_true_r.
Qed.

Lemma Parse_agrees_with_symbols_on_types_with_only_symbols_witness :
  only_symbols examples.Shade = true
  /\ lowering_is_ascii true examples.Shade "purple" = true
  /\ lowering_is_ascii true examples.Shade "red" = true
  /\ enum.Parse examples.Shade "purple" true
     = Returns (None, Some (enum.CouldntParse "purple" "Shade"))
  /\ enum.Parse examples.Shade "red" true = Returns (Some (IntV 2), None)
  /\ enum.ParseInt examples.Shade "red" true true
     = Returns (Some (IntV 2), None).
Proof.
  do 3 (split; [reflexivity|]).
  pose proof (Parse_agrees_with_symbols_on_types_with_only_symbols
                examples.Shade "purple" true eq_refl eq_refl) as [Hp _].
  pose proof (Parse_agrees_with_symbols_on_types_with_only_symbols
                examples.Shade "red" true eq_refl eq_refl) as [Hr Hs].
  split; [exact Hp|]. split; [exact Hr|].
  rewrite Hs. exact Hr.
Defined.

(** * The methods of the example types *)

(** The text [StringUintFlags] writes parses back to the value; the lemma
    the round trips of the example methods rest on. *)
Lemma flags_text_parses_back
        (T : RType) (intValue intBase : Z) (caseInsensitive : bool) :
  is_unsigned (TKind T) = true ->
  well_typed T = true ->
  exported_names T = true ->
  identifier_names T = true ->
  distinct_names caseInsensitive T = true ->
  0 <= intValue < 2 ^ bitSize T ->
  (intValue = 0 -> existsb is_zero_flag (symbols T) = true) ->
  (unmatched_bits T intValue <> 0 -> intBase = 16) ->
  exists s,
    enum.StringUintFlags intValue T intBase = Returns s
    /\ enum.ParseUintFlags T s caseInsensitive = Returns (intValue, None).
Proof.
  intros Hk Hty Hex Hid Hd Hr Hz Hbase. unfold bitSize in Hr.
  destruct (Z.eq_dec intValue 0) as [->|Hnz].
  - specialize (Hz eq_refl).
    destruct (find is_zero_flag (symbols T)) as [nv|] eqn:Hfind.
    2:{ apply existsb_exists in Hz. destruct Hz as (x & Hin & Hx).
        pose proof (find_none _ _ Hfind x Hin). congruence. }
    exists (fst nv). split; [now apply StringUintFlags_zero_found|].
    apply find_some in Hfind. destruct Hfind as [Hin Hzero].
    pose proof (symbols_of_names (Methods T) IsIdentifier Hid) as Hs.
    fold (symbols T) in Hs. rewrite forallb_forall in Hs.
    destruct (IsIdentifier_word _ (Hs nv Hin)) as [Hw _].
    change (fst nv) with (String.concat ", " [fst nv]).
    rewrite (ParseUintFlags_concat T caseInsensitive [fst nv]
               [uint_of (snd nv)]).
    + unfold is_zero_flag in Hzero. apply Z.eqb_eq in Hzero.
      now rewrite Hzero.
    + discriminate.
    + cbn [forallb]. now rewrite Hw.
    + apply (symbol_pieces T caseInsensitive [nv] Hk Hty Hd).
      intros x [<-|[]]. exact Hin.
  - rewrite (StringUintFlags_nonzero T intValue intBase Hk Hnz Hty). cbv zeta.
    unfold unmatched_bits in Hbase.
    set (ms := matched intValue (symbols T)) in *.
    set (bits := union_bits ms 0) in *.
    assert (Hsub : Z.land intValue bits = bits).
    { apply union_bits_subset. apply Z.land_0_r. }
    assert (Hnn : 0 <= bits).
    { apply union_bits_nonneg; [lia|]. apply forallb_forall.
      intros nv Hin. apply matched_incl in Hin.
      unfold well_typed in Hty. rewrite forallb_forall in Hty.
      destruct (has_kind_unsigned _ _ Hk (Hty nv Hin)) as (_ & _ & Hv).
      apply Z.leb_le. lia. }
    destruct (matched_words T intValue Hid) as [Hwords Hne].
    fold ms in Hwords, Hne.
    pose proof (symbol_pieces T caseInsensitive ms Hk Hty Hd
                  (fun nv => matched_incl intValue (symbols T) nv)) as Hpieces.
    rewrite (write_names_empty _ Hne).
    destruct (bits =? intValue) eqn:E; cbn [negb].
    + apply Z.eqb_eq in E. eexists. split; [reflexivity|].
      assert (Hsome : map fst ms <> []).
      { intros Hnil. apply map_eq_nil in Hnil.
        unfold bits in E. rewrite Hnil in E. cbn in E. congruence. }
      rewrite (ParseUintFlags_concat T caseInsensitive _ _ Hsome Hwords Hpieces).
      rewrite union_bits_fold. fold bits. now rewrite E.
    + apply Z.eqb_neq in E.
      assert (Hb16 : intBase = 16).
      { apply Hbase. intros Hx. apply Z.lxor_eq in Hx. congruence. }
      subst intBase. unfold strconv.FormatUint.
      change ((16 <? 2) || (36 <? 16)) with false. cbv iota. cbn [bind].
      set (lit := String "0" (String "x"
                    (strconv.formatBits (Z.lxor intValue bits) 16))).
      exists (String.concat ", " (map fst ms ++ [lit])). split.
      * f_equal. unfold strings.WriteString.
        destruct (map fst ms) as [|n names] eqn:En.
        -- reflexivity.
        -- replace (0 <? strings.Len (String.concat ", " (n :: names)))
             with true.
           2:{ symmetry. apply Z.ltb_lt. unfold strings.Len.
               cbn [forallb] in Hne. apply andb_prop in Hne.
               destruct Hne as [Hn _].
               apply negb_true_iff, String.eqb_neq in Hn.
               pose proof (concat_nonempty ", " n names Hn) as Hc.
               destruct (String.concat ", " (n :: names));
                 [congruence|cbn [String.length]; lia]. }
           rewrite concat_snoc by discriminate.
           unfold lit. now rewrite <- !append_assoc.
      * assert (Hrem : 0 <= Z.lxor intValue bits < 2 ^ (Size (TKind T) * 8))
          by (apply remainder_range; assumption).
        rewrite (ParseUintFlags_concat T caseInsensitive _
                   (map (fun nv => uint_of (snd nv)) ms
                    ++ [Z.lxor intValue bits])).
        -- rewrite fold_left_app, union_bits_fold. cbn [fold_left].
           fold bits. now rewrite lor_lxor_subset.
        -- destruct (map fst ms); discriminate.
        -- rewrite forallb_app, Hwords. cbn [forallb andb].
           unfold lit. now rewrite hex_literal_word.
        -- apply Forall2_app; [exact Hpieces|].
           constructor; [|constructor].
           now apply hex_literal_piece.
Qed.

(** X13. The methods of the example type Color: for every 16-bit value
    [c], [Parse] of what [String] returns for [c] sets the receiver to [c]
    and returns no error, whatever the receiver held; and whenever [Parse]
    returns an error, the receiver is unchanged. *)
Theorem Color_Parse_of_String_restores_the_value (c0 : Z) :
  (forall c,
      - 2 ^ 15 <= c < 2 ^ 15 ->
      exists s,
        enum_test.Color_String c = Returns s
        /\ enum_test.Color_Parse c0 s = Returns (c, None))
  /\ (forall s c' e,
        enum_test.Color_Parse c0 s = Returns (c', Some e) -> c' = c0).
Proof.
  split.
  - intros c Hc.
    assert (Hr : in_range (TKind examples.Color) c = true).
    { unfold in_range. cbn.
      apply andb_true_intro. split; [apply Z.leb_le|apply Z.ltb_lt]; lia. }
    destruct (StringInt_text_parses_back
                examples.Color c true eq_refl eq_refl Hr)
      as (s & Hs & Hp & _).
    exists s. split; [exact Hs|].
    unfold enum_test.Color_Parse. now rewrite Hp.
  - intros s c' e. unfold enum_test.Color_Parse.
    destruct (enum.findMethod examples.Color s true) as [m|] eqn:Hf.
    + rewrite (ParseInt_found _ _ _ _ _ Hf).
      destruct (enum.callMethod m) as [[z|x]|]; cbn; discriminate.
    + rewrite (ParseInt_not_found _ _ _ _ Hf).
      destruct (numericLiteral examples.Color s); cbn; [discriminate|].
      intros H. now inversion H.
Qed.

Lemma Color_Parse_of_String_restores_the_value_witness :
  - 2 ^ 15 <= 123 < 2 ^ 15
  /\ enum_test.Color_String 123 = Returns "123"%string
  /\ (exists s, enum_test.Color_String 123 = Returns s
                /\ enum_test.Color_Parse 1 s = Returns (123, None))
  /\ enum_test.Color_Parse 1 "Bluex"
     = Returns (1, Some (enum.CouldntParse "Bluex" "Color")).
Proof.
  pose proof (Color_Parse_of_String_restores_the_value 1) as [Hrt Herr].
  assert (Hc : - 2 ^ 15 <= 123 < 2 ^ 15) by (split; [discriminate|reflexivity]).
  split; [exact Hc|]. split; [reflexivity|].
  split; [exact (Hrt 123 Hc)|].
  assert (H : exists c', enum_test.Color_Parse 1 "Bluex"
                         = Returns (c', Some (enum.CouldntParse "Bluex" "Color")))
    by (exists 1; reflexivity).
  destruct H as [c' H]. rewrite H. now rewrite (Herr _ _ _ H).
Defined.

(** X14. The methods of the example type Access: for every 32-bit value
    [a], [Parse] of what [String] returns for [a] sets the receiver to [a]
    and returns no error, whatever the receiver held, the bits without a
    symbol included; and whenever [Parse] returns an error, the receiver is
    unchanged. *)
Theorem Access_Parse_of_String_restores_the_value (a0 : Z) :
  (forall a,
      0 <= a < 2 ^ 32 ->
      exists s,
        enum_test.Access_String a = Returns s
        /\ enum_test.Access_Parse a0 s = Returns (a, None))
  /\ (forall s a' e,
        enum_test.Access_Parse a0 s = Returns (a', Some e) -> a' = a0).
Proof.
  split.
  - intros a Ha.
    destruct (flags_text_parses_back examples.Access a 16 true
                eq_refl eq_refl eq_refl eq_refl eq_refl Ha)
      as (s & Hs & Hp); [reflexivity|reflexivity|].
    exists s. split; [exact Hs|].
    unfold enum_test.Access_Parse. rewrite Hp. cbn [bind enum.is_nil].
    now rewrite Z.mod_small.
  - intros s a' e. unfold enum_test.Access_Parse.
    destruct (enum.ParseUintFlags examples.Access s true) as [[v [err|]]|];
      cbn; try discriminate.
    intros H. now inversion H.
Qed.

Lemma Access_Parse_of_String_restores_the_value_witness :
  0 <= 262 < 2 ^ 32
  /\ enum_test.Access_String 262 = Returns "Execute, Write, 0x100"%string
  /\ exists s, enum_test.Access_String 262 = Returns s
               /\ enum_test.Access_Parse 0 s = Returns (262, None).
Proof.
  assert (Ha : 0 <= 262 < 2 ^ 32) by (split; [discriminate|reflexivity]).
  split; [exact Ha|]. split; [reflexivity|].
  exact (proj1 (Access_Parse_of_String_restores_the_value 0) 262 Ha).
Defined.

(** X15. The hand-written methods of ColorIdiomaticEnum: [Parse] of what
    [String] returns restores the value exactly for Red, Green and Blue.
    For every other value, None included, [Parse] returns the error naming
    the text and leaves the receiver at None, whatever it held. *)
Theorem ColorIdiomaticEnum_Parse_of_String (c0 c : Z) :
  (1 <= c <= 3 ->
   enum_test.ColorIdiomaticEnum_Parse c0 (enum_test.ColorIdiomaticEnum_String c)
   = (c, None))
  /\ (~ 1 <= c <= 3 ->
      enum_test.ColorIdiomaticEnum_Parse c0
        (enum_test.ColorIdiomaticEnum_String c)
      = (0, Some (enum.CouldntParse (enum_test.ColorIdiomaticEnum_String c)
                                    "Color"))).
Proof.
  unfold enum_test.ColorIdiomaticEnum_String. split; intros Hc.
  - assert (H : c = 1 \/ c = 2 \/ c = 3) by lia.
    destruct H as [->|[->| ->]]; reflexivity.
  - destruct (c =? 0) eqn:E0; [reflexivity|].
    destruct (c =? 1) eqn:E1; [apply Z.eqb_eq in E1; lia|].
    destruct (c =? 2) eqn:E2; [apply Z.eqb_eq in E2; lia|].
    destruct (c =? 3) eqn:E3; [apply Z.eqb_eq in E3; lia|].
    reflexivity.
Qed.

Lemma ColorIdiomaticEnum_Parse_of_String_witness :
  enum_test.ColorIdiomaticEnum_Parse 2 (enum_test.ColorIdiomaticEnum_String 3)
  = (3, None)
  /\ enum_test.ColorIdiomaticEnum_Parse 2 (enum_test.ColorIdiomaticEnum_String 0)
     = (0, Some (enum.CouldntParse "None" "Color")).
Proof.
  split.
  - apply (proj1 (ColorIdiomaticEnum_Parse_of_String 2 3)). lia.
  - apply (proj2 (ColorIdiomaticEnum_Parse_of_String 2 0)). lia.
Defined.

(** * The tables of the example type Color *)

Lemma Atoi_loop_digit (d : Z) (rest : string) (n : Z) :
  0 <= d < 10 ->
  strconv.Atoi_loop (String (strconv.digit_char d) rest) n
  = strconv.Atoi_loop rest (n * 10 + d).
Proof.
  intros Hd. cbn [strconv.Atoi_loop]. rewrite digit_char_byte by exact Hd.
  replace (48 + d - 48) with d by lia. rewrite Z.mod_small by lia.
  replace (9 <? d) with false by (symmetry; apply Z.ltb_ge; lia).
  reflexivity.
Qed.

Lemma Atoi_loop_format (fuel : nat) :
  forall u rest,
    0 <= u < 2 ^ Z.of_nat fuel ->
    strconv.Atoi_loop (strconv.formatBits_loop fuel u 10 EmptyString ++ rest)%string 0
    = strconv.Atoi_loop rest u.
Proof.
  induction fuel as [|fuel IH]; intros u rest Hu.
  - cbn in Hu. assert (u = 0) by lia. subst u. reflexivity.
  - cbn [strconv.formatBits_loop].
    destruct (10 <=? u) eqn:E.
    + apply Z.leb_le in E.
      rewrite formatBits_loop_app, <- append_assoc.
      assert (Hdiv : 0 <= u / 10 < 2 ^ Z.of_nat fuel).
      { split; [apply Z.div_pos; lia|].
        apply Z.div_lt_upper_bound; [lia|].
        rewrite Nat2Z.inj_succ, Z.pow_succ_r in Hu by lia. lia. }
      rewrite IH by exact Hdiv. cbn [String.append].
      rewrite Atoi_loop_digit by (apply Z.mod_pos_bound; lia).
      f_equal. rewrite (Z.div_mod u 10) at 3 by lia. lia.
    + apply Z.leb_gt in E. cbn [String.append].
      now rewrite Atoi_loop_digit by lia.
Qed.

Lemma Atoi_loop_formatBits (u : Z) :
  0 <= u < 2 ^ 64 ->
  strconv.Atoi_loop (strconv.formatBits u 10) 0 = Some u.
Proof.
  intros Hu. unfold strconv.formatBits.
  rewrite <- (append_nil_r (strconv.formatBits_loop 64 u 10 EmptyString)).
  now rewrite Atoi_loop_format.
Qed.

Lemma ParseUint_base10 (u : Z) :
  0 <= u < 2 ^ 64 ->
  strconv.ParseUint (strconv.formatBits u 10) 10 0 = (u, None).
Proof.
  intros Hu.
  destruct (formatBits_head u 10) as (m & rest & Heq & _); [lia|lia|].
  unfold strconv.ParseUint. rewrite Heq.
  change ((2 <=? 10) && (10 <=? 36)) with true. cbv iota.
  change ((0 <? 0) || (64 <? 0)) with false. cbv iota.
  change (0 =? 0) with true. change (10 =? 0) with false. cbv iota zeta.
  rewrite <- Heq.
  now rewrite (ParseUint_loop_formatBits false 10 64 u) by lia.
Qed.

Lemma ParseInt_base10 (c : Z) :
  - 2 ^ 63 <= c < 2 ^ 63 ->
  strconv.ParseInt (strconv.Itoa c) 10 0 = (c, None).
Proof.
  intros Hc. unfold strconv.Itoa.
  destruct (c <? 0) eqn:E.
  - apply Z.ltb_lt in E. unfold strconv.ParseInt.
    change (byte "-" =? 43) with false. change (byte "-" =? 45) with true.
    cbv iota. rewrite ParseUint_base10 by lia.
    change (0 =? 0) with true. cbv iota. cbn [negb andb].
    change (64 - 1) with 63.
    replace (2 ^ 63 <? - c) with false by (symmetry; apply Z.ltb_ge; lia).
    f_equal. lia.
  - apply Z.ltb_ge in E.
    destruct (formatBits_head c 10) as (m & rest & Heq & Hm & _); [lia|lia|].
    pose proof (ParseUint_base10 c ltac:(lia)) as HP.
    unfold strconv.ParseInt. rewrite Heq in *.
    rewrite digit_char_byte by lia.
    replace (48 + m =? 43) with false by (symmetry; apply Z.eqb_neq; lia).
    replace (48 + m =? 45) with false by (symmetry; apply Z.eqb_neq; lia).
    rewrite HP. change (0 =? 0) with true. cbv iota. cbn [negb andb].
    change (64 - 1) with 63.
    replace (2 ^ 63 <=? c) with false by (symmetry; apply Z.leb_gt; lia).
    reflexivity.
Qed.

(** [Atoi] reads what [Itoa] writes, on either of its paths. *)
Lemma Atoi_Itoa (c : Z) :
  - 2 ^ 63 <= c < 2 ^ 63 -> strconv.Atoi (strconv.Itoa c) = (c, None).
Proof.
  intros Hc. unfold strconv.Atoi.
  destruct ((0 <? Z.of_nat (String.length (strconv.Itoa c)))
            && (Z.of_nat (String.length (strconv.Itoa c)) <? 19));
    [|now apply ParseInt_base10].
  unfold strconv.Itoa. destruct (c <? 0) eqn:E.
  - apply Z.ltb_lt in E.
    change (byte "-" =? 45) with true. cbn [orb andb].
    destruct (formatBits_head (- c) 10) as (m & rest & Heq & _); [lia|lia|].
    rewrite Atoi_loop_formatBits by lia. rewrite Heq.
    cbn [String.length].
    replace (Z.of_nat (S (String.length rest)) <? 1) with false
      by (symmetry; apply Z.ltb_ge; lia).
    f_equal. lia.
  - apply Z.ltb_ge in E.
    destruct (formatBits_head c 10) as (m & rest & Heq & Hm & _); [lia|lia|].
    pose proof (Atoi_loop_formatBits c ltac:(lia)) as HL.
    rewrite Heq in *. rewrite digit_char_byte by lia.
    replace (48 + m =? 45) with false by (symmetry; apply Z.eqb_neq; lia).
    replace (48 + m =? 43) with false by (symmetry; apply Z.eqb_neq; lia).
    cbn [orb andb]. now rewrite HL.
Qed.

Lemma init_tables :
  enum_test.init
  = Returns ([(1, "Red"%string); (0, "None"%string);
              (2, "Green"%string); (3, "Blue"%string)],
             [("Red"%string, 1); ("None"%string, 0);
              ("Green"%string, 2); ("Blue"%string, 3)]).
Proof. reflexivity. Qed.

Lemma Itoa_not_letter (n : Z) :
  - 2 ^ 64 < n < 2 ^ 64 -> starts_with_letter (strconv.Itoa n) = false.
Proof. exact (Sprintf_d_not_letter n). Qed.

Lemma eqb_letter_nonletter (a b : string) :
  starts_with_letter a = true -> starts_with_letter b = false ->
  String.eqb a b = false.
Proof. intros Ha Hb. apply String.eqb_neq. intros ->. congruence. Qed.

Lemma ParseFast_Itoa (tables : enum_test.colorTablesT) (c0 n : Z) :
  enum_test.init = Returns tables ->
  - 2 ^ 63 <= n < 2 ^ 63 ->
  enum_test.Color_ParseFast tables c0 (strconv.Itoa n)
  = ((n + 2 ^ 15) mod 2 ^ 16 - 2 ^ 15, None).
Proof.
  rewrite init_tables. intros H Hn. inversion H. subst tables. clear H.
  unfold enum_test.Color_ParseFast, enum_test.map_lookup. cbn [fst snd find].
  assert (Hnl : starts_with_letter (strconv.Itoa n) = false)
    by (apply Itoa_not_letter; lia).
  rewrite !(fun a Ha => eqb_letter_nonletter a (strconv.Itoa n) Ha Hnl)
    by reflexivity.
  now rewrite Atoi_Itoa.
Qed.

(** X16. The table-based [StringFast] of Color returns what its [String]
    returns, for every value. *)
Theorem Color_StringFast_agrees_with_String
        (tables : enum_test.colorTablesT) (c : Z) :
  enum_test.init = Returns tables ->
  enum_test.Color_String c = Returns (enum_test.Color_StringFast tables c).
Proof.
  rewrite init_tables. intros H. inversion H. subst tables. clear H.
  unfold enum_test.Color_String, enum.StringInt, enum_test.Color_StringFast,
    enum_test.map_lookup.
  rewrite String_spec.
  change (symbols examples.Color)
    with [("Blue"%string, IntV 3); ("Green"%string, IntV 2);
          ("None"%string, IntV 0); ("Red"%string, IntV 1)].
  cbn [find fst snd Value_eqb bind].
  destruct (Z.eq_dec c 0) as [->|H0]; [reflexivity|].
  destruct (Z.eq_dec c 1) as [->|H1]; [reflexivity|].
  destruct (Z.eq_dec c 2) as [->|H2]; [reflexivity|].
  destruct (Z.eq_dec c 3) as [->|H3]; [reflexivity|].
  replace (0 =? c) with false by (symmetry; apply Z.eqb_neq; lia).
  replace (1 =? c) with false by (symmetry; apply Z.eqb_neq; lia).
  replace (2 =? c) with false by (symmetry; apply Z.eqb_neq; lia).
  replace (3 =? c) with false by (symmetry; apply Z.eqb_neq; lia).
  reflexivity.
Qed.

Lemma Color_StringFast_agrees_with_String_witness :
  exists tables,
    enum_test.init = Returns tables
    /\ enum_test.Color_String 2 = Returns (enum_test.Color_StringFast tables 2)
    /\ enum_test.Color_StringFast tables 2 = "Green"%string
    /\ enum_test.Color_StringFast tables 123 = "123"%string.
Proof.
  eexists. split; [exact init_tables|].
  split; [exact (Color_StringFast_agrees_with_String _ 2 init_tables)|].
  split; reflexivity.
Defined.

(** X17. [ParseFast] of Color does not check the range of a decimal
    literal: for every [int] it stores the literal cut to 16 bits and
    returns no error; and for every 16-bit value, [ParseFast] of what
    [StringFast] returns restores the value. *)
Theorem Color_ParseFast_cuts_literals_to_16_bits
        (tables : enum_test.colorTablesT) (c0 : Z) :
  enum_test.init = Returns tables ->
  (forall n,
      - 2 ^ 63 <= n < 2 ^ 63 ->
      enum_test.Color_ParseFast tables c0 (strconv.Itoa n)
      = ((n + 2 ^ 15) mod 2 ^ 16 - 2 ^ 15, None))
  /\ (forall c,
        - 2 ^ 15 <= c < 2 ^ 15 ->
        enum_test.Color_ParseFast tables c0 (enum_test.Color_StringFast tables c)
        = (c, None)).
Proof.
  intros Hinit. split.
  - intros n Hn. now apply ParseFast_Itoa.
  - intros c Hc.
    assert (Hwrap : (c + 2 ^ 15) mod 2 ^ 16 - 2 ^ 15 = c).
    { rewrite Z.mod_small by lia. lia. }
    pose proof (ParseFast_Itoa tables c0 c Hinit ltac:(lia)) as Hlit.
    rewrite Hwrap in Hlit.
    rewrite init_tables in Hinit. inversion Hinit. subst tables. clear Hinit.
    unfold enum_test.Color_StringFast, enum_test.map_lookup in *.
    cbn [find fst snd] in *.
    destruct (Z.eq_dec c 0) as [->|H0]; [reflexivity|].
    destruct (Z.eq_dec c 1) as [->|H1]; [reflexivity|].
    destruct (Z.eq_dec c 2) as [->|H2]; [reflexivity|].
    destruct (Z.eq_dec c 3) as [->|H3]; [reflexivity|].
    replace (0 =? c) with false by (symmetry; apply Z.eqb_neq; lia).
    replace (1 =? c) with false by (symmetry; apply Z.eqb_neq; lia).
    replace (2 =? c) with false by (symmetry; apply Z.eqb_neq; lia).
    replace (3 =? c) with false by (symmetry; apply Z.eqb_neq; lia).
    exact Hlit.
Qed.

Lemma Color_ParseFast_cuts_literals_to_16_bits_witness :
  exists tables,
    enum_test.init = Returns tables
    /\ - 2 ^ 63 <= 65537 < 2 ^ 63
    /\ enum_test.Color_ParseFast tables 3 "65537" = (1, None)
    /\ enum_test.Color_ParseFast tables 3
         (enum_test.Color_StringFast tables (-5))
       = (-5, None).
Proof.
  eexists. split; [exact init_tables|].
  pose proof (Color_ParseFast_cuts_literals_to_16_bits _ 3 init_tables)
    as [Hlit Hrt].
  assert (Hn : - 2 ^ 63 <= 65537 < 2 ^ 63) by (split; [discriminate|reflexivity]).
  split; [exact Hn|]. split; [exact (Hlit 65537 Hn)|].
  apply Hrt. split; [discriminate|reflexivity].
Defined.
